(** * Verification of the brainfuck interpreter (src/main.rs)

    Shallow embedding of the two stages of [main.rs]:
    - [tokenize_lines]: source lines to a token stream whose brackets carry
      their partner's index in [jump_addr];
    - [run_brainfuck]: the fetch/execute loop over a 32768-cell byte tape,
      permissive (wrapping) or strict (panicking).

    A source [char] is modelled as an [ascii] whose 8-bit value is its code
    point, so the characters U+0000..U+00FF are covered (characters above
    U+00FF are outside the model); a Rust [usize] as [nat]; a
    [u8] cell as a [Z] whose wrap-around is written out.  A Rust [panic!],
    [expect] or failed [assert_eq!] becomes an error value that records what
    the panic message reports. *)

From Stdlib Require Import Ascii String ZArith Lia.
From stdpp Require Import base list.
Import ListNotations.

Open Scope Z_scope.

(* ------------------------------------------------------------------ *)
(** ** Tokens *)

(** [struct Token { opcode: char, jump_addr: Option<usize>, line: usize }] *)
Record Token := mkToken {
  opcode : ascii;
  jump_addr : option nat;
  line : nat
}.

(** [Token::inst] *)
Definition inst (c : ascii) : Token := mkToken c None 0%nat.

Definition set_line (t : Token) (l : nat) : Token :=
  mkToken (opcode t) (jump_addr t) l.

Definition set_jump (t : Token) (j : option nat) : Token :=
  mkToken (opcode t) j (line t).

(** The eight opcode characters of [code_tokens]. *)
Definition code_chars : list ascii :=
  ["<"; ">"; "+"; "-"; ","; "."; "["; "]"]%char.

(** [comment_tokens] *)
Definition comment_chars : list ascii := ["#"; "/"; ";"]%char.

Definition mem_char (c : ascii) (l : list ascii) : bool :=
  existsb (Ascii.eqb c) l.

(** [code_tokens.iter().find(|&c| c.opcode == character)] is [Some _]. *)
Definition is_code (c : ascii) : bool := mem_char c code_chars.

Definition is_comment (c : ascii) : bool := mem_char c comment_chars.

(** [char::is_whitespace] (Unicode White_Space) on U+0000..U+00FF:
    U+0009..U+000D, U+0020, U+0085 and U+00A0. *)
Definition is_whitespace (c : ascii) : bool :=
  let n := nat_of_ascii c in
  (Nat.eqb n 32 || (9 <=? n)%nat && (n <=? 13)%nat || Nat.eqb n 133 || Nat.eqb n 160)%bool.

(* ------------------------------------------------------------------ *)
(** ** Assembly: [tokenize_lines] *)

(** The two panics of [tokenize_lines]:
    - [scope_open_addrs.pop().expect("Tried to pop a scope that wasn't opened
      on line {}!")] reports the 1-based line of the ']';
    - [assert_eq!(scope_open_addrs.len(), 0)] reports the left value, the
      number of pending '[' (no line). *)
Inductive AsmError :=
| UnmatchedClose (l : nat)
| DanglingOpen (pending : nat).

(** The mutable locals of [tokenize_lines]: [opcode_tokens],
    [scope_open_addrs] (top of the stack first) and the "Unknown character"
    lines printed so far (line, character). *)
Record TokState := mkTokState {
  tokens : list Token;
  scopes : list nat;
  warns : list (nat * ascii)
}.

Definition tok_init : TokState := mkTokState [] [] [].

(** One opcode character on 0-based line [ln] (the [match] on
    [found_token.unwrap().opcode]). *)
Definition tok_code (ln : nat) (c : ascii) (st : TokState) : AsmError + TokState :=
  let toks := tokens st in
  if Ascii.eqb c "["%char then
    (* push, remember its index, set its line *)
    inr (mkTokState (toks ++ [set_line (inst c) (S ln)])
                    (length toks :: scopes st) (warns st))
  else if Ascii.eqb c "]"%char then
    match scopes st with
    | [] => inl (UnmatchedClose (S ln))
    | a :: rest =>
        let toks1 := toks ++ [set_jump (inst c) (Some a)] in
        let toks2 := <[a := set_jump (default (inst c) (toks1 !! a))
                                      (Some (length toks1 - 1)%nat)]> toks1 in
        let n := (length toks2 - 1)%nat in
        let toks3 := <[n := set_line (default (inst c) (toks2 !! n)) (S ln)]> toks2 in
        inr (mkTokState toks3 rest (warns st))
    end
  else inr (mkTokState (toks ++ [set_line (inst c) (S ln)]) (scopes st) (warns st)).

(** [println!("Unknown character on line {}, ignoring: {}", ..)] *)
Definition warn (ln : nat) (c : ascii) (st : TokState) : TokState :=
  mkTokState (tokens st) (scopes st) (warns st ++ [(S ln, c)]).

(** [for character in line.chars()]; the comment case is the [break]. *)
Fixpoint tok_line (ln : nat) (cs : list ascii) (st : TokState) : AsmError + TokState :=
  match cs with
  | [] => inr st
  | c :: cs' =>
      if is_code c then
        match tok_code ln c st with
        | inl e => inl e
        | inr st' => tok_line ln cs' st'
        end
      else if is_comment c then inr st
      else if is_whitespace c then tok_line ln cs' st
      else tok_line ln cs' (warn ln c st)
  end.

(** [for (line_num, line) in lines.iter().enumerate()] *)
Fixpoint tok_lines (ln : nat) (lines : list (list ascii)) (st : TokState)
  : AsmError + TokState :=
  match lines with
  | [] => inr st
  | l :: ls =>
      match tok_line ln l st with
      | inl e => inl e
      | inr st' => tok_lines (S ln) ls st'
      end
  end.

(** [tokenize_lines], ending with [assert_eq!(scope_open_addrs.len(), 0)]. *)
Definition tokenize_lines_st (lines : list (list ascii)) : AsmError + TokState :=
  match tok_lines 0 lines tok_init with
  | inl e => inl e
  | inr st =>
      match scopes st with
      | [] => inr st
      | _ => inl (DanglingOpen (length (scopes st)))
      end
  end.

(** The returned [Vec<Token>] (or the panic). *)
Definition tokenize_lines (lines : list (list ascii)) : AsmError + list Token :=
  match tokenize_lines_st lines with
  | inl e => inl e
  | inr st => inr (tokens st)
  end.

Definition src (s : string) : list ascii := list_ascii_of_string s.

(* ------------------------------------------------------------------ *)
(** ** Execution: [run_brainfuck] *)

(** [data_cells.len()] and [data_size = data_cells.len() - 1]. *)
Definition tape_len : nat := Z.to_nat 32768.
Definition data_size : nat := (tape_len - 1)%nat.

(** The run-time panics; each message reports [curr_inst.line].
    [MissingJump] is [curr_inst.jump_addr.unwrap()] on [None]. *)
Inductive Fault :=
| PointerUnderflow
| PointerOverflow
| CellOverflow
| CellUnderflow
| InputFailure
| MissingJump.

(** The locals of [run_brainfuck] together with its two effects: the bytes
    written to stdout ([out]) and what [term.read_char()] will return, one
    entry per call ([inp]; [None] is an [Err], and an exhausted list is a
    failing read as well).  A character is its code point.  The
    "Unknown instruction" lines are kept apart in [diag]. *)
Record State := mkState {
  ip : nat;
  dp : nat;
  cells : list Z;
  out : list Z;
  inp : list (option N);
  diag : list (nat * ascii)
}.

Definition init_state (input : list (option N)) : State :=
  mkState 0 0 (repeat 0 tape_len) [] input [].

(** [data_cells[data_ptr]] *)
Definition cur (st : State) : Z := default 0 (cells st !! dp st).

Definition with_ip (st : State) (i : nat) : State :=
  mkState i (dp st) (cells st) (out st) (inp st) (diag st).
Definition with_dp (st : State) (d : nat) : State :=
  mkState (ip st) d (cells st) (out st) (inp st) (diag st).
Definition with_cur (st : State) (v : Z) : State :=
  mkState (ip st) (dp st) (<[dp st := v]> (cells st)) (out st) (inp st) (diag st).

(** [u8::wrapping_add(1)], [u8::wrapping_sub(1)], [u8::checked_add(1)],
    [u8::checked_sub(1)] *)
Definition wrapping_add1 (v : Z) : Z := (v + 1) mod 256.
Definition wrapping_sub1 (v : Z) : Z := (v - 1) mod 256.
Definition checked_add1 (v : Z) : option Z := if v + 1 <=? 255 then Some (v + 1) else None.
Definition checked_sub1 (v : Z) : option Z := if 0 <=? v - 1 then Some (v - 1) else None.

(** [print!("{}", v as char)]: the [char] U+0000..U+00FF written as UTF-8. *)
Definition print_u8_as_char (v : Z) : list Z :=
  if v <? 128 then [v]
  else [Z.lor 192 (Z.shiftr v 6); Z.lor 128 (Z.land v 63)].

(** [term.read_char().expect(..) as u8]: the character truncated to 8 bits. *)
Definition read_char (st : State) : option (N * list (option N)) :=
  match inp st with
  | Some c :: rest => Some (c, rest)
  | _ => None
  end.

Inductive StepResult :=
| Next (st : State)
| Panic (f : Fault) (l : nat) (st : State).

(** One iteration of the [while] body, for the fetched token [t]. *)
Definition exec_token (strict : bool) (t : Token) (st : State) : StepResult :=
  let i := ip st in
  match ascii_dec (opcode t) "<"%char with
  | left _ =>
      if (0 <? dp st)%nat then Next (with_ip (with_dp st (dp st - 1)) (S i))
      else if strict then Panic PointerUnderflow (line t) st
      else Next (with_ip (with_dp st data_size) (S i))
  | right _ =>
  match ascii_dec (opcode t) ">"%char with
  | left _ =>
      if (dp st <? data_size)%nat then Next (with_ip (with_dp st (S (dp st))) (S i))
      else if strict then Panic PointerOverflow (line t) st
      else Next (with_ip (with_dp st 0) (S i))
  | right _ =>
  match ascii_dec (opcode t) "+"%char with
  | left _ =>
      if strict then
        match checked_add1 (cur st) with
        | Some v => Next (with_ip (with_cur st v) (S i))
        | None => Panic CellOverflow (line t) st
        end
      else Next (with_ip (with_cur st (wrapping_add1 (cur st))) (S i))
  | right _ =>
  match ascii_dec (opcode t) "-"%char with
  | left _ =>
      if strict then
        match checked_sub1 (cur st) with
        | Some v => Next (with_ip (with_cur st v) (S i))
        | None => Panic CellUnderflow (line t) st
        end
      else Next (with_ip (with_cur st (wrapping_sub1 (cur st))) (S i))
  | right _ =>
  match ascii_dec (opcode t) "."%char with
  | left _ =>
      Next (mkState (S i) (dp st) (cells st) (out st ++ print_u8_as_char (cur st))
                    (inp st) (diag st))
  | right _ =>
  match ascii_dec (opcode t) ","%char with
  | left _ =>
      match read_char st with
      | Some (c, rest) =>
          Next (mkState (S i) (dp st) (<[dp st := Z.of_N c mod 256]> (cells st))
                        (out st) rest (diag st))
      | None => Panic InputFailure (line t) st
      end
  | right _ =>
  match ascii_dec (opcode t) "["%char with
  | left _ =>
      if cur st =? 0 then
        match jump_addr t with
        | Some j => Next (with_ip st (S j))
        | None => Panic MissingJump (line t) st
        end
      else Next (with_ip st (S i))
  | right _ =>
  match ascii_dec (opcode t) "]"%char with
  | left _ =>
      if negb (cur st =? 0) then
        match jump_addr t with
        | Some j => Next (with_ip st (S j))
        | None => Panic MissingJump (line t) st
        end
      else Next (with_ip st (S i))
  | right _ =>
      Next (mkState (S i) (dp st) (cells st) (out st) (inp st)
                    (diag st ++ [(line t, opcode t)]))
  end end end end end end end end.

(** One iteration of [while inst_ptr < opcode_tokens.len()]; [None] when the
    loop condition fails. *)
Definition step (toks : list Token) (strict : bool) (st : State) : option StepResult :=
  match toks !! ip st with
  | Some t => Some (exec_token strict t st)
  | None => None
  end.

Inductive RunResult :=
| Done (st : State)
| Crashed (f : Fault) (l : nat) (st : State)
| OutOfFuel (st : State).

(** The [while] loop, with a fuel bound. *)
Fixpoint run (fuel : nat) (toks : list Token) (strict : bool) (st : State) : RunResult :=
  match fuel with
  | O => OutOfFuel st
  | S f =>
      if (ip st <? length toks)%nat then
        match step toks strict st with
        | Some (Next st') => run f toks strict st'
        | Some (Panic e l st') => Crashed e l st'
        | None => Done st
        end
      else Done st
  end.

Definition run_brainfuck (fuel : nat) (toks : list Token) (strict : bool)
  (input : list (option N)) : RunResult :=
  run fuel toks strict (init_state input).

Definition run_source (fuel : nat) (lines : list (list ascii)) (strict : bool)
  (input : list (option N)) : option RunResult :=
  match tokenize_lines lines with
  | inl _ => None
  | inr toks => Some (run_brainfuck fuel toks strict input)
  end.

(* ------------------------------------------------------------------ *)
(** ** The driver: [read_file] and [main] *)

Definition nl_char : ascii := "010"%char.
Definition cr_char : ascii := "013"%char.

(** [s.split_inclusive('\n')]: the pieces of [s] that end in '\n', then the
    rest when it is not empty ([acc] is the current piece, reversed). *)
Fixpoint split_inclusive_nl (acc : list ascii) (s : list ascii) : list (list ascii) :=
  match s with
  | [] => match acc with [] => [] | _ => [rev acc] end
  | c :: s' =>
      if Ascii.eqb c nl_char then rev (c :: acc) :: split_inclusive_nl [] s'
      else split_inclusive_nl (c :: acc) s'
  end.

(** [l.strip_suffix(c)] *)
Definition strip_suffix (c : ascii) (l : list ascii) : option (list ascii) :=
  match rev l with
  | c' :: r => if Ascii.eqb c' c then Some (rev r) else None
  | [] => None
  end.

(** The map of [str::lines]: drop a final '\n', then a '\r' before it. *)
Definition lines_map (l : list ascii) : list ascii :=
  match strip_suffix nl_char l with
  | None => l
  | Some l' => match strip_suffix cr_char l' with None => l' | Some l'' => l'' end
  end.

(** [str::lines] ([split_inclusive('\n').map(..)]). *)
Definition str_lines (s : list ascii) : list (list ascii) :=
  map lines_map (split_inclusive_nl [] s).

(** [read_file]: the file system maps a path to its contents (as
    characters); [None] is an
    [Err] of [read_to_string], on which [unwrap] panics. *)
Definition read_file (fs : string -> option (list ascii)) (filename : string)
  : option (list (list ascii)) :=
  match fs filename with
  | None => None
  | Some s => Some (str_lines s)
  end.

(** The argument handling of [main]: [ArgsIndexPanic] is [args[0]] on an
    empty [args]; [ArgsUsage] is the usage message and [exit(1)]. *)
Inductive ArgsResult :=
| ArgsIndexPanic
| ArgsUsage
| ArgsRun (strict : bool) (filepath : string).

Definition parse_args (args : list string) : ArgsResult :=
  if (length args <? 2)%nat then
    match args with [] => ArgsIndexPanic | _ => ArgsUsage end
  else if (length args =? 2)%nat then ArgsRun false (nth 1 args ""%string)
  else if (length args =? 3)%nat then
    ArgsRun (String.eqb (nth 1 args ""%string) "--strict") (nth 2 args ""%string)
  else ArgsUsage.

Inductive MainResult :=
| MainIndexPanic
| MainUsageExit
| MainReadPanic
| MainAsmPanic (e : AsmError)
| MainRan (r : RunResult).

(** [main]: [run_brainfuck(tokenize_lines(read_file(..)), strict)]. *)
Definition main (args : list string) (fs : string -> option (list ascii))
  (fuel : nat) (input : list (option N)) : MainResult :=
  match parse_args args with
  | ArgsIndexPanic => MainIndexPanic
  | ArgsUsage => MainUsageExit
  | ArgsRun strict path =>
      match read_file fs path with
      | None => MainReadPanic
      | Some lines =>
          match tokenize_lines lines with
          | inl e => MainAsmPanic e
          | inr toks => MainRan (run_brainfuck fuel toks strict input)
          end
      end
  end.

(* ------------------------------------------------------------------ *)
(** ** Properties of streams and programs used in the statements *)

(** A stream the executor can follow: every bracket carries a jump target
    inside the stream. *)
Definition is_bracket (c : ascii) : bool :=
  (Ascii.eqb c "["%char || Ascii.eqb c "]"%char)%bool.

Definition wf_token (n : nat) (t : Token) : bool :=
  if is_bracket (opcode t) then
    match jump_addr t with Some j => (j <? n)%nat | None => false end
  else true.

Definition wf_stream (toks : list Token) : bool :=
  forallb (wf_token (length toks)) toks.

(** States reached by the [while] loop from [st0]. *)
Inductive reaches (toks : list Token) (strict : bool) (st0 : State) : State -> Prop :=
| reaches_refl : reaches toks strict st0 st0
| reaches_step st st' :
    reaches toks strict st0 st ->
    (ip st < length toks)%nat ->
    step toks strict st = Some (Next st') ->
    reaches toks strict st0 st'.

(** The invariant of a running state. *)
Definition valid_state (len : nat) (st : State) : Prop :=
  (ip st <= len)%nat /\ (dp st <= data_size)%nat /\ length (cells st) = tape_len /\
  Forall (fun v => 0 <= v <= 255) (cells st).

(** Bracket depth after scanning [l] from depth [d]; [None] when a ']'
    finds no pending '['. *)
Fixpoint scan (d : nat) (l : list ascii) : option nat :=
  match l with
  | [] => Some d
  | c :: l' =>
      if Ascii.eqb c "["%char then scan (S d) l'
      else if Ascii.eqb c "]"%char then
        match d with O => None | S d' => scan d' l' end
      else scan d l'
  end.

Definition balanced (l : list ascii) : bool :=
  match scan 0 l with Some O => true | _ => false end.

(** The opcodes of a program line as the spec reads it: opcode characters
    up to the first comment character. *)
Fixpoint line_ops (cs : list ascii) : list ascii :=
  match cs with
  | [] => []
  | c :: cs' =>
      if is_code c then c :: line_ops cs'
      else if is_comment c then []
      else line_ops cs'
  end.

Definition program_ops (lines : list (list ascii)) : list ascii :=
  concat (map line_ops lines).

(** [i] is a '[' and [j] is the ']' that closes it: the opcodes strictly
    between them are balanced. *)
Definition matched (ops : list ascii) (i j : nat) : Prop :=
  (i < j)%nat /\ ops !! i = Some "["%char /\ ops !! j = Some "]"%char /\
  scan 0 (take (j - i - 1) (drop (S i) ops)) = Some O.

(** What [tokenize_lines] keeps of its state: the tokens and the stack. *)
Definition core_st (st : TokState) : list Token * list nat := (tokens st, scopes st).

Definition core_res (r : AsmError + TokState) : AsmError + (list Token * list nat) :=
  match r with inl e => inl e | inr st => inr (core_st st) end.

(** [i] is a '[' whose target is [j], [j] a ']' whose target is [i], and
    they match. *)
Definition paired (toks : list Token) (i j : nat) : Prop :=
  exists t u, toks !! i = Some t /\ toks !! j = Some u /\
    opcode t = "["%char /\ opcode u = "]"%char /\
    jump_addr t = Some j /\ jump_addr u = Some i /\
    matched (map opcode toks) i j.

(** The state of [tokenize_lines] between two characters: each pending
    '[' has no target yet and the opcodes after it are [q] levels deep
    ([q] its distance from the top of the stack); the stack height is the
    current depth; every other '[' and every ']' is paired. *)
Definition tok_inv (toks : list Token) (s : list nat) : Prop :=
  (forall q a, s !! q = Some a ->
     exists t, toks !! a = Some t /\ opcode t = "["%char /\ jump_addr t = None /\
       scan 0 (drop (S a) (map opcode toks)) = Some q) /\
  scan 0 (map opcode toks) = Some (length s) /\
  (forall i t, toks !! i = Some t -> opcode t = "["%char ->
     (forall q, s !! q <> Some i) -> exists j, paired toks i j) /\
  (forall j u, toks !! j = Some u -> opcode u = "]"%char -> exists i, paired toks i j).

(** A token's opcode and line. *)
Definition op_line (t : Token) : ascii * nat := (opcode t, line t).

(** The characters of a line that [tokenize_lines] reports as unknown:
    neither opcode nor whitespace, before the first comment character. *)
Fixpoint line_unknowns (cs : list ascii) : list ascii :=
  match cs with
  | [] => []
  | c :: cs' =>
      if is_code c then line_unknowns cs'
      else if is_comment c then []
      else if is_whitespace c then line_unknowns cs'
      else c :: line_unknowns cs'
  end.

(** The opcodes of lines [ln], [ln+1], ... (0-based), each with the 1-based
    number of its line. *)
Fixpoint ops_with_lines (ln : nat) (ls : list (list ascii)) : list (ascii * nat) :=
  match ls with
  | [] => []
  | l :: ls' => map (fun c => (c, S ln)) (line_ops l) ++ ops_with_lines (S ln) ls'
  end.

(** The unknown characters of lines [ln], [ln+1], ..., each after the
    1-based number of its line. *)
Fixpoint unknowns_with_lines (ln : nat) (ls : list (list ascii)) : list (nat * ascii) :=
  match ls with
  | [] => []
  | l :: ls' => map (fun c => (S ln, c)) (line_unknowns l) ++ unknowns_with_lines (S ln) ls'
  end.

(** Decoding of a one- or two-byte UTF-8 sequence. *)
Definition utf8_decode (bs : list Z) : option Z :=
  match bs with
  | [b] => if b <? 128 then Some b else None
  | [b1; b2] =>
      if ((192 <=? b1) && (b1 <? 224) && (128 <=? b2) && (b2 <? 192))%bool
      then Some (Z.lor (Z.shiftl (Z.land b1 31) 6) (Z.land b2 63))
      else None
  | _ => None
  end.

(** What [print_u8_as_char v] is, as a boolean test: one byte [v] below
    128, otherwise a lead byte in [194, 195] and a continuation byte, and
    decoding gives [v] back. *)
Definition print_shape (v : Z) : bool :=
  match print_u8_as_char v with
  | [b] => ((b =? v) && (v <? 128))%bool
  | [b1; b2] =>
      ((128 <=? v) && (194 <=? b1) && (b1 <=? 195) && (128 <=? b2) && (b2 <=? 191) &&
       match utf8_decode [b1; b2] with Some w => w =? v | None => false end)%bool
  | _ => false
  end.

(** What one iteration that does not panic may change. *)
Definition step_effects (t : Token) (st st' : State) : Prop :=
  (forall k, k <> dp st -> cells st' !! k = cells st !! k) /\
  length (cells st') = length (cells st) /\
  (exists o, out st' = out st ++ o) /\
  (inp st' = inp st \/ exists c, inp st = c :: inp st') /\
  (diag st' = diag st \/
   (is_code (opcode t) = false /\ diag st' = diag st ++ [(line t, opcode t)])) /\
  (Forall (fun v => 0 <= v <= 255) (cells st) -> Forall (fun v => 0 <= v <= 255) (cells st')).

(* ------------------------------------------------------------------ *)
(** ** Tests *)

Example tokenize_simple :
  tokenize_lines [src "+[-]"] =
  inr [mkToken "+" None 1; mkToken "[" (Some 3%nat) 1;
       mkToken "-" None 1; mkToken "]" (Some 1%nat) 1]%char.
Proof. reflexivity. Qed.

Example echo_A :
  match run_source 10 [src ",."] false [Some 65%N] with
  | Some (Done st) => out st
  | _ => []
  end = [65].
Proof. vm_compute. reflexivity. Qed.

Example strict_minus :
  match run_source 10 [src "-"] true [] with
  | Some (Crashed f l st) => (f, l, out st)
  | _ => (MissingJump, 0%nat, [])
  end = (CellUnderflow, 1%nat, []).
Proof. vm_compute. reflexivity. Qed.

(* ------------------------------------------------------------------ *)
(** ** Executor lemmas *)

Ltac exec_simp := cbn -[data_size tape_len cur with_ip with_dp with_cur Nat.ltb].

Lemma tape_len_Z : Z.of_nat tape_len = 32768.
Proof. reflexivity. Qed.

Lemma data_size_Z : Z.of_nat data_size = 32767.
Proof. reflexivity. Qed.

Lemma tape_len_S : tape_len = S data_size.
Proof. reflexivity. Qed.

(** A token whose execution panics ends the loop with that panic. *)
Lemma run_panic (fuel : nat) (toks : list Token) (strict : bool) (st : State)
  (t : Token) (f : Fault) (l : nat) (st' : State) :
  toks !! ip st = Some t ->
  exec_token strict t st = Panic f l st' ->
  run (S fuel) toks strict st = Crashed f l st'.
Proof.
  intros Ht He. cbn [run].
  assert (Hlt : (ip st < length toks)%nat) by (eapply lookup_lt_Some; eauto).
  apply Nat.ltb_lt in Hlt. rewrite Hlt. unfold step. rewrite Ht, He. reflexivity.
Qed.

(** C2: loop-open jumps to one past its target when the cell is 0 and
    otherwise steps to the next instruction; loop-close jumps to one past
    its target when the cell is not 0 and otherwise steps on.  Only the
    instruction pointer changes ([with_ip]). *)
Theorem loop_brackets_step (toks : list Token) (strict : bool) (st : State)
  (t : Token) (j : nat) :
  toks !! ip st = Some t ->
  jump_addr t = Some j ->
  (opcode t = "["%char ->
     step toks strict st =
     Some (Next (with_ip st (if cur st =? 0 then S j else S (ip st))))) /\
  (opcode t = "]"%char ->
     step toks strict st =
     Some (Next (with_ip st (if cur st =? 0 then S (ip st) else S j)))).
Proof.
  intros Ht Hj. unfold step. rewrite Ht.
  destruct t as [op ja l]; cbn in Hj; subst ja.
  split; intros Hop; cbn in Hop; subst op; exec_simp;
    destruct (cur st =? 0); reflexivity.
Qed.

Lemma loop_brackets_step_witness :
  step [mkToken "[" (Some 1%nat) 1; mkToken "]" (Some 0%nat) 1]%char false
       (init_state [])
  = Some (Next (with_ip (init_state []) 2)).
Proof.
  apply (proj1 (loop_brackets_step
                  [mkToken "[" (Some 1%nat) 1; mkToken "]" (Some 0%nat) 1]%char
                  false (init_state []) (mkToken "[" (Some 1%nat) 1) 1
                  eq_refl eq_refl) eq_refl).
Defined.

Lemma permissive_left (t : Token) (st : State) :
  opcode t = "<"%char -> (dp st <= data_size)%nat ->
  exec_token false t st =
  Next (with_ip (with_dp st ((dp st + data_size) mod tape_len)) (S (ip st))).
Proof.
  pose proof tape_len_S as HL.
  destruct t as [op ja l]; cbn [opcode]. intros -> Hd. exec_simp.
  destruct (Nat.ltb_spec 0 (dp st)).
  - do 3 f_equal.
    rewrite <- (Nat.mod_unique (dp st + data_size) tape_len 1 (dp st - 1)); lia.
  - assert (dp st = O) as -> by lia.
    rewrite Nat.mod_small; [reflexivity | lia].
Qed.

Lemma permissive_right (t : Token) (st : State) :
  opcode t = ">"%char -> (dp st <= data_size)%nat ->
  exec_token false t st =
  Next (with_ip (with_dp st ((S (dp st)) mod tape_len)) (S (ip st))).
Proof.
  pose proof tape_len_S as HL.
  destruct t as [op ja l]; cbn [opcode]. intros -> Hd. exec_simp.
  destruct (Nat.ltb_spec (dp st) data_size).
  - do 3 f_equal. rewrite Nat.mod_small; lia.
  - do 3 f_equal. assert (dp st = data_size) as -> by lia.
    rewrite HL, Nat.Div0.mod_same; reflexivity.
Qed.

Lemma permissive_no_boundary_fault (t : Token) (st : State) :
  match exec_token false t st with
  | Panic f _ _ => f = InputFailure \/ f = MissingJump
  | Next _ => True
  end.
Proof.
  destruct t as [op ja l]. unfold exec_token; cbn [opcode].
  repeat case_match; try discriminate; try exact I;
    match goal with
    | H : Panic _ _ _ = Panic _ _ _ |- _ => injection H; intros; subst; auto
    end.
Qed.

(** C3: in permissive mode ([strict = false]) the pointer wraps modulo
    32768 and the cells modulo 256: '<' at 0 gives 32767, '>' at 32767
    gives 0, '+' on 255 gives 0, '-' on 0 gives 255, and no boundary fault
    is ever raised (the only panics left are input failure and a bracket
    without target). *)
Theorem permissive_wraps (t : Token) (st : State) :
  Z.of_nat data_size = 32767 /\
  (opcode t = "<"%char -> (dp st <= data_size)%nat ->
     exec_token false t st =
     Next (with_ip (with_dp st ((dp st + data_size) mod tape_len)) (S (ip st)))) /\
  (opcode t = ">"%char -> (dp st <= data_size)%nat ->
     exec_token false t st =
     Next (with_ip (with_dp st ((S (dp st)) mod tape_len)) (S (ip st)))) /\
  (opcode t = "+"%char ->
     exec_token false t st = Next (with_ip (with_cur st ((cur st + 1) mod 256)) (S (ip st)))) /\
  (opcode t = "-"%char ->
     exec_token false t st = Next (with_ip (with_cur st ((cur st - 1) mod 256)) (S (ip st)))) /\
  (opcode t = "<"%char -> dp st = O ->
     exec_token false t st = Next (with_ip (with_dp st data_size) (S (ip st)))) /\
  (opcode t = ">"%char -> dp st = data_size ->
     exec_token false t st = Next (with_ip (with_dp st O) (S (ip st)))) /\
  (opcode t = "+"%char -> cur st = 255 ->
     exec_token false t st = Next (with_ip (with_cur st 0) (S (ip st)))) /\
  (opcode t = "-"%char -> cur st = 0 ->
     exec_token false t st = Next (with_ip (with_cur st 255) (S (ip st)))) /\
  (match exec_token false t st with
   | Panic f _ _ => f = InputFailure \/ f = MissingJump
   | Next _ => True
   end).
Proof.
  split; [exact data_size_Z|].
  split; [apply permissive_left|].
  split; [apply permissive_right|].
  split; [intros Hop; destruct t as [op ja l]; cbn in Hop; subst op; reflexivity|].
  split; [intros Hop; destruct t as [op ja l]; cbn in Hop; subst op; reflexivity|].
  split.
  { intros Hop Hd. rewrite (permissive_left t st Hop) by (rewrite Hd; lia).
    rewrite Hd. cbn [Nat.add]. rewrite Nat.mod_small; [reflexivity|].
    rewrite tape_len_S. lia. }
  split.
  { intros Hop Hd. rewrite (permissive_right t st Hop) by lia.
    rewrite Hd, tape_len_S, Nat.Div0.mod_same. reflexivity. }
  split.
  { intros Hop Hc. destruct t as [op ja l]; cbn in Hop; subst op.
    exec_simp. unfold wrapping_add1. rewrite Hc. reflexivity. }
  split.
  { intros Hop Hc. destruct t as [op ja l]; cbn in Hop; subst op.
    exec_simp. unfold wrapping_sub1. rewrite Hc. reflexivity. }
  apply permissive_no_boundary_fault.
Qed.

Lemma permissive_wraps_witness :
  exec_token false (mkToken "<" None 1) (init_state [])
  = Next (with_ip (with_dp (init_state []) data_size) 1).
Proof.
  apply (proj1 (proj2 (proj2 (proj2 (proj2 (proj2
           (permissive_wraps (mkToken "<" None 1) (init_state [])))))))
           eq_refl eq_refl).
Defined.

(** C4: in strict mode the four boundary conditions panic with the
    matching fault, reporting the instruction's source line, and the run
    ends right there with that fault. *)
Theorem strict_boundary_faults (fuel : nat) (toks : list Token) (st : State) (t : Token) :
  toks !! ip st = Some t ->
  (opcode t = "<"%char -> dp st = O ->
     exec_token true t st = Panic PointerUnderflow (line t) st /\
     run (S fuel) toks true st = Crashed PointerUnderflow (line t) st) /\
  (opcode t = ">"%char -> dp st = data_size ->
     exec_token true t st = Panic PointerOverflow (line t) st /\
     run (S fuel) toks true st = Crashed PointerOverflow (line t) st) /\
  (opcode t = "+"%char -> cur st = 255 ->
     exec_token true t st = Panic CellOverflow (line t) st /\
     run (S fuel) toks true st = Crashed CellOverflow (line t) st) /\
  (opcode t = "-"%char -> cur st = 0 ->
     exec_token true t st = Panic CellUnderflow (line t) st /\
     run (S fuel) toks true st = Crashed CellUnderflow (line t) st).
Proof.
  intros Ht.
  assert (E : forall f, exec_token true t st = Panic f (line t) st ->
                exec_token true t st = Panic f (line t) st /\
                run (S fuel) toks true st = Crashed f (line t) st)
    by (intros f He; split; [exact He | eapply run_panic; eauto]).
  destruct t as [op ja l]; cbn [opcode line] in *.
  split; [|split; [|split]]; intros Hop Hc; subst op; apply E; exec_simp.
  - rewrite Hc. reflexivity.
  - rewrite Hc, Nat.ltb_irrefl. reflexivity.
  - unfold checked_add1. rewrite Hc. reflexivity.
  - unfold checked_sub1. rewrite Hc. reflexivity.
Qed.

Lemma strict_boundary_faults_witness :
  run 5 [mkToken "-" None 1]%char true (init_state [])
  = Crashed CellUnderflow 1 (init_state []).
Proof.
  apply (proj2 (proj2 (proj2 (proj2
          (strict_boundary_faults 4 [mkToken "-" None 1]%char (init_state [])
             (mkToken "-" None 1) eq_refl))) eq_refl eq_refl)).
Defined.

(** C10: a panicking instruction in strict mode leaves the whole state
    (tape, data pointer, instruction pointer, effects) as it was before the
    instruction, and reports the instruction's line. *)
Theorem strict_fault_atomic (t : Token) (st : State) (f : Fault) (l : nat) (st' : State) :
  exec_token true t st = Panic f l st' -> st' = st /\ l = line t.
Proof.
  destruct t as [op ja l0]. unfold exec_token; cbn [opcode line].
  repeat case_match; intros HP; try discriminate;
    injection HP; intros; subst; auto.
Qed.

Lemma strict_fault_atomic_witness :
  mkState 0 0 [255] [] [] [] = mkState 0 0 [255] [] [] [] /\ 3%nat = 3%nat.
Proof.
  apply (strict_fault_atomic (mkToken "+" None 3) (mkState 0 0 [255] [] [] [])
           CellOverflow 3).
  reflexivity.
Defined.

(** C6 (failing input): '.' prints [cell as char] through [print!], which
    writes the UTF-8 encoding of that character, so a cell holding 255
    ("-." in permissive mode) puts the two bytes 0xC3 0xBF on stdout
    instead of the single byte 0xFF. *)
Theorem output_255_two_bytes :
  match run_source 10 [src "-."] false [] with
  | Some (Done st) => out st
  | _ => []
  end = [195; 191].
Proof. vm_compute. reflexivity. Qed.

(** The output step in general: the tape, the pointer and the input are
    untouched and the UTF-8 form of [cell as char] is appended; it is one
    byte equal to the cell exactly when the cell is below 128. *)
Lemma output_step (strict : bool) (t : Token) (st : State) :
  opcode t = "."%char ->
  exec_token strict t st =
  Next (mkState (S (ip st)) (dp st) (cells st) (out st ++ print_u8_as_char (cur st))
                (inp st) (diag st)) /\
  (0 <= cur st < 128 -> print_u8_as_char (cur st) = [cur st]) /\
  (128 <= cur st <= 255 -> length (print_u8_as_char (cur st)) = 2%nat).
Proof.
  destruct t as [op ja l]; cbn [opcode]; intros ->.
  split; [reflexivity|]. unfold print_u8_as_char.
  split; intros H.
  - rewrite (proj2 (Z.ltb_lt _ _)) by lia. reflexivity.
  - rewrite (proj2 (Z.ltb_ge _ _)) by lia. reflexivity.
Qed.

(** The input step in general: ',' calls [term.read_char()] once, which
    reads a character, not a byte; on success it stores the character's
    code point truncated to 8 bits ([as u8]) in the current cell, leaving
    the pointer, the other cells and the output alone; a failing read
    panics with [InputFailure] at the instruction's line, the state
    unchanged. *)
Lemma input_step (strict : bool) (t : Token) (st : State) :
  opcode t = ","%char ->
  (forall c rest, inp st = Some c :: rest ->
     exec_token strict t st =
     Next (mkState (S (ip st)) (dp st) (<[dp st := Z.of_N c mod 256]> (cells st))
                   (out st) rest (diag st)) /\
     ((c < 256)%N -> (dp st < length (cells st))%nat ->
        exists st', exec_token strict t st = Next st' /\ cur st' = Z.of_N c /\
          (forall k, k <> dp st -> cells st' !! k = cells st !! k))) /\
  ((inp st = [] \/ exists rest, inp st = None :: rest) ->
     exec_token strict t st = Panic InputFailure (line t) st).
Proof.
  destruct t as [op ja l]; cbn [opcode line]; intros ->.
  split.
  - intros c rest Hi.
    assert (E : exec_token strict (mkToken "," ja l) st =
                Next (mkState (S (ip st)) (dp st) (<[dp st := Z.of_N c mod 256]> (cells st))
                              (out st) rest (diag st)))
      by (exec_simp; unfold read_char; rewrite Hi; reflexivity).
    split; [exact E|]. intros Hc Hd.
    eexists; split; [exact E|]. split.
    + unfold cur; cbn [cells dp]. rewrite list_lookup_insert_eq by exact Hd.
      cbn. apply Z.mod_small. lia.
    + intros k Hk. cbn [cells]. apply list_lookup_insert_ne. congruence.
  - intros [Hi | [rest Hi]]; exec_simp; unfold read_char; rewrite Hi; reflexivity.
Qed.

(** C7 (failing input): ',' does not read one byte.  It reads one
    character and keeps its code point modulo 256: typing U+0100, which
    reaches the program as the two bytes 0xC4 0x80, stores 0 (neither
    byte), and ",." then echoes the byte 0.  Typing U+00E9 (bytes 0xC3
    0xA9) stores 233 (0xE9), again neither byte. *)
Theorem input_reads_char_not_byte :
  (match run_source 10 [src ",."] false [Some 256%N] with
   | Some (Done st) => (cur st, out st)
   | _ => (1, [])
   end = (0, [0])) /\
  (match run_source 10 [src ","] false [Some 233%N] with
   | Some (Done st) => cur st
   | _ => 0
   end = 233).
Proof. split; vm_compute; reflexivity. Qed.

(* ------------------------------------------------------------------ *)
(** ** The run-time invariant *)

Lemma cur_range (st : State) :
  Forall (fun v => 0 <= v <= 255) (cells st) -> 0 <= cur st <= 255.
Proof.
  intros H. unfold cur. destruct (cells st !! dp st) as [v|] eqn:E; cbn.
  - rewrite Forall_lookup in H. exact (H _ _ E).
  - lia.
Qed.

Lemma wf_jump (toks : list Token) (i : nat) (t : Token) (j : nat) :
  wf_stream toks = true -> toks !! i = Some t ->
  is_bracket (opcode t) = true -> jump_addr t = Some j -> (j < length toks)%nat.
Proof.
  unfold wf_stream. intros Hw Ht Hb Hj.
  rewrite forallb_forall in Hw.
  specialize (Hw t (proj1 (list_elem_of_In _ _) (list_elem_of_lookup_2 _ _ _ Ht))).
  unfold wf_token in Hw. rewrite Hb, Hj in Hw. apply Nat.ltb_lt. exact Hw.
Qed.

Lemma checked_add1_range (v w : Z) :
  0 <= v -> checked_add1 v = Some w -> 0 <= w <= 255.
Proof.
  unfold checked_add1. intros Hv H. destruct (Z.leb_spec (v + 1) 255); [|discriminate].
  injection H as <-. lia.
Qed.

Lemma checked_sub1_range (v w : Z) :
  v <= 255 -> checked_sub1 v = Some w -> 0 <= w <= 255.
Proof.
  unfold checked_sub1. intros Hv H. destruct (Z.leb_spec 0 (v - 1)); [|discriminate].
  injection H as <-. lia.
Qed.

Lemma mod256_range (v : Z) : 0 <= v mod 256 <= 255.
Proof. pose proof (Z.mod_pos_bound v 256). lia. Qed.

Ltac ltb_facts :=
  repeat match goal with
  | H : (_ <? _)%nat = true |- _ => apply Nat.ltb_lt in H
  | H : (_ <? _)%nat = false |- _ => apply Nat.ltb_ge in H
  end.

Ltac valid_close Hlen Hcells :=
  unfold valid_state, with_ip, with_dp, with_cur; cbn [ip dp cells]; ltb_facts;
  split; [lia|]; split; [lia|]; split;
  [ try rewrite length_insert; exact Hlen
  | first [ exact Hcells | apply Forall_insert; [exact Hcells|] ] ].

(** One iteration keeps a valid state valid. *)
Lemma step_valid (toks : list Token) (strict : bool) (st st' : State) :
  wf_stream toks = true ->
  valid_state (length toks) st ->
  (ip st < length toks)%nat ->
  step toks strict st = Some (Next st') ->
  valid_state (length toks) st'.
Proof.
  intros Hw [Hip [Hdp [Hlen Hcells]]] Hlt Hs.
  unfold step in Hs. destruct (toks !! ip st) as [t|] eqn:Ht; [|discriminate].
  injection Hs as Hs.
  pose proof (cur_range st Hcells) as Hc.
  pose proof tape_len_S as HL.
  destruct t as [op ja l]. unfold exec_token in Hs; cbn [opcode jump_addr] in Hs.
  destruct (ascii_dec op "<") as [->|n1].
  { destruct (0 <? dp st)%nat eqn:E; [|destruct strict]; try discriminate Hs;
      injection Hs as <-; valid_close Hlen Hcells. }
  destruct (ascii_dec op ">") as [->|n2].
  { destruct (dp st <? data_size)%nat eqn:E; [|destruct strict]; try discriminate Hs;
      injection Hs as <-; valid_close Hlen Hcells. }
  destruct (ascii_dec op "+") as [->|n3].
  { destruct strict; [destruct (checked_add1 (cur st)) eqn:E|]; try discriminate Hs;
      injection Hs as <-; valid_close Hlen Hcells.
    - eapply checked_add1_range; [|exact E]; lia.
    - apply mod256_range. }
  destruct (ascii_dec op "-") as [->|n4].
  { destruct strict; [destruct (checked_sub1 (cur st)) eqn:E|]; try discriminate Hs;
      injection Hs as <-; valid_close Hlen Hcells.
    - eapply checked_sub1_range; [|exact E]; lia.
    - apply mod256_range. }
  destruct (ascii_dec op ".") as [->|n5].
  { injection Hs as <-; valid_close Hlen Hcells. }
  destruct (ascii_dec op ",") as [->|n6].
  { destruct (read_char st) as [[c rest]|]; try discriminate Hs;
      injection Hs as <-; valid_close Hlen Hcells. apply mod256_range. }
  destruct (ascii_dec op "[") as [->|n7].
  { destruct (cur st =? 0); [destruct ja as [j|] eqn:Ej|]; try discriminate Hs;
      injection Hs as <-;
      [pose proof (wf_jump toks (ip st) _ j Hw Ht eq_refl eq_refl) as Hj; cbn in Hj|];
      valid_close Hlen Hcells. }
  destruct (ascii_dec op "]") as [->|n8].
  { destruct (negb (cur st =? 0)); [destruct ja as [j|] eqn:Ej|]; try discriminate Hs;
      injection Hs as <-;
      [pose proof (wf_jump toks (ip st) _ j Hw Ht eq_refl eq_refl) as Hj; cbn in Hj|];
      valid_close Hlen Hcells. }
  injection Hs as <-; valid_close Hlen Hcells.
Qed.

Lemma repeat_zero_range (n : nat) : Forall (fun v => 0 <= v <= 255) (repeat 0 n).
Proof. induction n as [|n IH]; constructor; [lia | exact IH]. Qed.

Lemma init_valid (len : nat) (input : list (option N)) :
  valid_state len (init_state input).
Proof.
  unfold valid_state, init_state; cbn [ip dp cells].
  split; [lia|]. split; [lia|]. split.
  - apply repeat_length.
  - apply repeat_zero_range.
Qed.

Lemma run_done_ip (fuel : nat) (toks : list Token) (strict : bool) (st st' : State) :
  run fuel toks strict st = Done st' -> (length toks <= ip st')%nat.
Proof.
  revert st. induction fuel as [|fuel IH]; intros st H; cbn [run] in H; [discriminate H|].
  destruct (Nat.ltb_spec (ip st) (length toks)) as [Hlt|Hge].
  - unfold step in H. destruct (toks !! ip st) as [t|] eqn:Ht.
    + destruct (exec_token strict t st); [apply (IH _ H) | discriminate H].
    + injection H as <-. apply lookup_ge_None. exact Ht.
  - injection H as <-. exact Hge.
Qed.

(** C9: for a well-formed stream, every state the loop reaches has its
    instruction pointer in [0, len], its data pointer in [0, 32767] and every
    cell in [0, 255] (on a tape of 32768 cells); each step keeps these bounds;
    the loop ends normally exactly when the instruction pointer is at least
    [len]. *)
Theorem run_invariants (toks : list Token) (strict : bool) (input : list (option N)) :
  wf_stream toks = true ->
  Z.of_nat data_size = 32767 /\
  (forall st, reaches toks strict (init_state input) st -> valid_state (length toks) st) /\
  (forall st st', valid_state (length toks) st -> (ip st < length toks)%nat ->
     step toks strict st = Some (Next st') -> valid_state (length toks) st') /\
  (forall fuel st st', run fuel toks strict st = Done st' -> (length toks <= ip st')%nat) /\
  (forall fuel st, (length toks <= ip st)%nat -> run (S fuel) toks strict st = Done st).
Proof.
  intros Hw. split; [exact data_size_Z|]. split; [|split; [|split]].
  - intros st H. induction H as [|st st' _ IH Hlt Hs].
    + apply init_valid.
    + eapply step_valid; eauto.
  - intros st st' Hv Hlt Hs. eapply step_valid; eauto.
  - intros fuel st st' H. exact (run_done_ip fuel toks strict st st' H).
  - intros fuel st Hge. cbn [run].
    destruct (Nat.ltb_spec (ip st) (length toks)); [lia | reflexivity].
Qed.

Lemma run_invariants_witness :
  valid_state 4 (init_state []).
Proof.
  apply (proj1 (proj2 (run_invariants
    [mkToken "+" None 1; mkToken "[" (Some 3%nat) 1;
     mkToken "-" None 1; mkToken "]" (Some 1%nat) 1]%char false [] eq_refl))).
  apply reaches_refl.
Defined.

(** C5 (failing input): an unmatched ']' panics with the 1-based line of
    that ']' (here 2), but a '[' left open at end of input fails the
    [assert_eq!], whose message reports only the number of pending opens
    (here 1) and not the line of the '[' (here 3). *)
Theorem unmatched_open_reports_no_line :
  tokenize_lines [src ""; src "]"] = inl (UnmatchedClose 2) /\
  tokenize_lines [src ""; src ""; src "["] = inl (DanglingOpen 1).
Proof. split; reflexivity. Qed.

(* ------------------------------------------------------------------ *)
(** ** Character classes and the comment / whitespace / warning paths *)

Ltac all_chars c :=
  destruct c as [[] [] [] [] [] [] [] []].

Lemma comment_not_code (c : ascii) : is_comment c = true -> is_code c = false.
Proof. intros H. all_chars c; try discriminate H; reflexivity. Qed.

Lemma whitespace_not_code (c : ascii) : is_whitespace c = true -> is_code c = false.
Proof. intros H. all_chars c; try discriminate H; reflexivity. Qed.

Lemma whitespace_not_comment (c : ascii) : is_whitespace c = true -> is_comment c = false.
Proof. intros H. all_chars c; try discriminate H; reflexivity. Qed.

Lemma tok_code_core (ln : nat) (c : ascii) (st1 st2 : TokState) :
  core_st st1 = core_st st2 ->
  core_res (tok_code ln c st1) = core_res (tok_code ln c st2).
Proof.
  destruct st1 as [t1 s1 w1], st2 as [t2 s2 w2]; unfold core_st; cbn.
  intros E; injection E as <- <-.
  unfold tok_code; cbn [tokens scopes].
  destruct (Ascii.eqb c "["%char); [reflexivity|].
  destruct (Ascii.eqb c "]"%char); [destruct s1; reflexivity | reflexivity].
Qed.

Lemma tok_line_core (ln : nat) (cs : list ascii) (st1 st2 : TokState) :
  core_st st1 = core_st st2 ->
  core_res (tok_line ln cs st1) = core_res (tok_line ln cs st2).
Proof.
  revert st1 st2. induction cs as [|c cs IH]; intros st1 st2 E; cbn [tok_line].
  - cbn. rewrite E. reflexivity.
  - destruct (is_code c).
    + pose proof (tok_code_core ln c st1 st2 E) as Ec.
      destruct (tok_code ln c st1) as [e1|s1], (tok_code ln c st2) as [e2|s2];
        cbn [core_res] in Ec; try discriminate Ec.
      * exact Ec.
      * apply IH. congruence.
    + destruct (is_comment c); [cbn; rewrite E; reflexivity|].
      destruct (is_whitespace c); apply IH; [exact E|].
      destruct st1, st2; exact E.
Qed.

Lemma tok_lines_core (ln : nat) (ls : list (list ascii)) (st1 st2 : TokState) :
  core_st st1 = core_st st2 ->
  core_res (tok_lines ln ls st1) = core_res (tok_lines ln ls st2).
Proof.
  revert ln st1 st2. induction ls as [|l ls IH]; intros ln st1 st2 E; cbn [tok_lines].
  - cbn. rewrite E. reflexivity.
  - pose proof (tok_line_core ln l st1 st2 E) as El.
    destruct (tok_line ln l st1) as [e1|s1], (tok_line ln l st2) as [e2|s2];
      cbn [core_res] in El; try discriminate El.
    + exact El.
    + apply IH. congruence.
Qed.

(** Replacing one line by another that tokenizes to the same tokens and
    stack does not change the result of [tokenize_lines]. *)
Lemma tok_lines_replace (ls1 ls2 : list (list ascii)) (l l' : list ascii) :
  forall ln st1 st2,
  (forall s1 s2, core_st s1 = core_st s2 ->
     core_res (tok_line (ln + length ls1) l s1) =
     core_res (tok_line (ln + length ls1) l' s2)) ->
  core_st st1 = core_st st2 ->
  core_res (tok_lines ln (ls1 ++ l :: ls2) st1) =
  core_res (tok_lines ln (ls1 ++ l' :: ls2) st2).
Proof.
  induction ls1 as [|l1 ls1 IH]; intros ln st1 st2 Hl E; cbn [app tok_lines].
  - rewrite Nat.add_0_r in Hl.
    pose proof (Hl st1 st2 E) as El.
    destruct (tok_line ln l st1) as [e1|s1], (tok_line ln l' st2) as [e2|s2];
      cbn [core_res] in El; try discriminate El.
    + exact El.
    + apply tok_lines_core. congruence.
  - pose proof (tok_line_core ln l1 st1 st2 E) as El.
    destruct (tok_line ln l1 st1) as [e1|s1], (tok_line ln l1 st2) as [e2|s2];
      cbn [core_res] in El; try discriminate El.
    + exact El.
    + apply IH; [|congruence].
      intros a b Eab. cbn [length] in Hl.
      replace (S ln + length ls1)%nat with (ln + S (length ls1))%nat by lia.
      apply Hl. exact Eab.
Qed.

Lemma tokenize_lines_core (lines1 lines2 : list (list ascii)) :
  core_res (tok_lines 0 lines1 tok_init) = core_res (tok_lines 0 lines2 tok_init) ->
  tokenize_lines lines1 = tokenize_lines lines2.
Proof.
  unfold tokenize_lines, tokenize_lines_st.
  destruct (tok_lines 0 lines1 tok_init) as [e1|s1], (tok_lines 0 lines2 tok_init) as [e2|s2];
    cbn; intros E; try discriminate E.
  - injection E as ->. reflexivity.
  - destruct s1 as [t1 c1 w1], s2 as [t2 c2 w2]; cbn in E |- *.
    injection E as <- <-. destruct c1; reflexivity.
Qed.

(** The [break] at a comment character: the rest of the line is dropped. *)
Lemma tok_line_comment (ln : nat) (pre post : list ascii) (c : ascii) (st : TokState) :
  is_comment c = true -> tok_line ln (pre ++ c :: post) st = tok_line ln pre st.
Proof.
  intros Hc. revert st. induction pre as [|c0 pre IH]; intros st; cbn [app tok_line].
  - rewrite (comment_not_code c Hc), Hc. reflexivity.
  - destruct (is_code c0).
    + destruct (tok_code ln c0 st); [reflexivity | apply IH].
    + destruct (is_comment c0); [reflexivity|].
      destruct (is_whitespace c0); apply IH.
Qed.

Lemma tok_line_whitespace (ln : nat) (w : ascii) (cs : list ascii) (st : TokState) :
  is_whitespace w = true -> tok_line ln (w :: cs) st = tok_line ln cs st.
Proof.
  intros Hw. cbn [tok_line].
  rewrite (whitespace_not_code w Hw), (whitespace_not_comment w Hw), Hw. reflexivity.
Qed.

Lemma tok_line_unknown (ln : nat) (u : ascii) (cs : list ascii) (st : TokState) :
  is_code u = false -> is_comment u = false -> is_whitespace u = false ->
  tok_line ln (u :: cs) st = tok_line ln cs (warn ln u st).
Proof. intros H1 H2 H3. cbn [tok_line]. rewrite H1, H2, H3. reflexivity. Qed.

(** A character that is neither an opcode nor a comment start changes only
    the warnings of the line it is on. *)
Lemma tok_line_skip_core (ln : nat) (pre post : list ascii) (u : ascii) :
  is_code u = false -> is_comment u = false ->
  forall st1 st2, core_st st1 = core_st st2 ->
  core_res (tok_line ln (pre ++ u :: post) st1) = core_res (tok_line ln (pre ++ post) st2).
Proof.
  intros H1 H2. induction pre as [|c0 pre IH]; intros st1 st2 E; cbn [app].
  - cbn [tok_line]. rewrite H1, H2.
    destruct (is_whitespace u); apply tok_line_core; [exact E|].
    destruct st1; exact E.
  - cbn [tok_line]. destruct (is_code c0).
    + pose proof (tok_code_core ln c0 st1 st2 E) as Ec.
      destruct (tok_code ln c0 st1) as [e1|s1], (tok_code ln c0 st2) as [e2|s2];
        cbn [core_res] in Ec; try discriminate Ec.
      * exact Ec.
      * apply IH. congruence.
    + destruct (is_comment c0); [cbn; rewrite E; reflexivity|].
      destruct (is_whitespace c0); apply IH; [exact E|].
      destruct st1, st2; exact E.
Qed.

(** C8: a comment character ('#', '/' or ';') drops the rest of its line
    (so "+++ # this is ignored +++" gives three '+' tokens); whitespace is
    skipped without a warning; any other non-opcode character is recorded as
    a warning naming its line and skipped, and the token stream is the one
    obtained without that character. *)
Theorem comments_whitespace_unknown :
  (forall ls1 pre c post ls2, is_comment c = true ->
     tokenize_lines (ls1 ++ (pre ++ c :: post) :: ls2) = tokenize_lines (ls1 ++ pre :: ls2)) /\
  tokenize_lines [src "+++ # this is ignored +++"] =
    inr [mkToken "+" None 1; mkToken "+" None 1; mkToken "+" None 1]%char /\
  (forall ln w cs st, is_whitespace w = true -> tok_line ln (w :: cs) st = tok_line ln cs st) /\
  (forall ls1 pre w post ls2, is_whitespace w = true ->
     tokenize_lines (ls1 ++ (pre ++ w :: post) :: ls2) =
     tokenize_lines (ls1 ++ (pre ++ post) :: ls2)) /\
  (forall ln u cs st, is_code u = false -> is_comment u = false -> is_whitespace u = false ->
     tok_line ln (u :: cs) st =
     tok_line ln cs (mkTokState (tokens st) (scopes st) (warns st ++ [(S ln, u)]))) /\
  (forall ls1 pre u post ls2, is_code u = false -> is_comment u = false ->
     tokenize_lines (ls1 ++ (pre ++ u :: post) :: ls2) =
     tokenize_lines (ls1 ++ (pre ++ post) :: ls2)).
Proof.
  split; [|split; [|split; [|split; [|split]]]].
  - intros ls1 pre c post ls2 Hc. apply tokenize_lines_core.
    apply tok_lines_replace; [|reflexivity].
    intros s1 s2 E. rewrite tok_line_comment by exact Hc. apply tok_line_core. exact E.
  - reflexivity.
  - apply tok_line_whitespace.
  - intros ls1 pre w post ls2 Hw. apply tokenize_lines_core.
    apply tok_lines_replace; [|reflexivity].
    apply tok_line_skip_core; [apply whitespace_not_code | apply whitespace_not_comment];
      exact Hw.
  - apply tok_line_unknown.
  - intros ls1 pre u post ls2 H1 H2. apply tokenize_lines_core.
    apply tok_lines_replace; [|reflexivity].
    apply tok_line_skip_core; assumption.
Qed.

Lemma comments_whitespace_unknown_witness :
  tokenize_lines ([] ++ (src "+" ++ "#" :: src "]")%char :: []) =
  tokenize_lines ([] ++ src "+" :: []).
Proof.
  apply (proj1 comments_whitespace_unknown [] (src "+") "#"%char (src "]") []).
  reflexivity.
Defined.

(* ------------------------------------------------------------------ *)
(** ** Bracket pairing in [tokenize_lines] *)

Lemma scan_app (d : nat) (l1 l2 : list ascii) :
  scan d (l1 ++ l2) = match scan d l1 with Some d' => scan d' l2 | None => None end.
Proof.
  revert d. induction l1 as [|c l1 IH]; intros d; cbn [app scan]; [reflexivity|].
  destruct (Ascii.eqb c "["%char); [apply IH|].
  destruct (Ascii.eqb c "]"%char); [destruct d; [reflexivity | apply IH] | apply IH].
Qed.

Lemma scan_prefix (d : nat) (l1 l2 : list ascii) :
  scan d (l1 ++ l2) <> None -> scan d l1 <> None.
Proof. rewrite scan_app. destruct (scan d l1); congruence. Qed.

Lemma lookup_map_opcode (l : list Token) (k : nat) :
  map opcode l !! k = option_map opcode (l !! k).
Proof.
  revert k. induction l as [|x l IH]; intros k; [reflexivity|].
  destruct k; cbn; [reflexivity | apply IH].
Qed.

Lemma length_map_opcode (l : list Token) : length (map opcode l) = length l.
Proof. apply length_map. Qed.

Lemma matched_app (ops l : list ascii) (i j : nat) :
  matched ops i j -> matched (ops ++ l) i j.
Proof.
  intros (Hij & Hi & Hj & Hs).
  assert (Hlt : (j < length ops)%nat) by (eapply lookup_lt_Some; eauto).
  split; [exact Hij|]. split; [apply lookup_app_l_Some; exact Hi|].
  split; [apply lookup_app_l_Some; exact Hj|].
  rewrite drop_app_le by lia. rewrite take_app_le; [exact Hs|].
  rewrite length_drop. lia.
Qed.

Lemma paired_app (toks l : list Token) (i j : nat) :
  paired toks i j -> paired (toks ++ l) i j.
Proof.
  intros (t & u & Ht & Hu & Hot & Hou & Hjt & Hju & Hm).
  exists t, u. rewrite map_app.
  split; [apply lookup_app_l_Some; exact Ht|].
  split; [apply lookup_app_l_Some; exact Hu|].
  do 4 (split; [assumption|]).
  apply matched_app. exact Hm.
Qed.

Lemma tok_inv_init : tok_inv [] [].
Proof.
  split; [intros q a H; discriminate H|]. split; [reflexivity|].
  split; intros i t H; discriminate H.
Qed.

Lemma scan_plain (d : nat) (c : ascii) :
  is_bracket c = false -> scan d [c] = Some d.
Proof.
  unfold is_bracket. intros H. apply Bool.orb_false_iff in H as [H1 H2].
  cbn. rewrite H1, H2. reflexivity.
Qed.

Lemma drop_snoc_ops (toks : list Token) (x : Token) (a : nat) :
  (a < length toks)%nat ->
  drop (S a) (map opcode (toks ++ [x])) = drop (S a) (map opcode toks) ++ [opcode x].
Proof.
  intros H. rewrite map_app. apply drop_app_le. rewrite length_map. lia.
Qed.

(** Appending a token that is not a bracket. *)
Lemma tok_inv_plain (toks : list Token) (s : list nat) (x : Token) :
  tok_inv toks s -> is_bracket (opcode x) = false -> tok_inv (toks ++ [x]) s.
Proof.
  intros (H1 & H2 & H3 & H4) Hx.
  split; [|split; [|split]].
  - intros q a Hq. destruct (H1 q a Hq) as (t & Ht & Ho & Hj & Hs).
    exists t. split; [apply lookup_app_l_Some; exact Ht|]. do 2 (split; [assumption|]).
    rewrite drop_snoc_ops by (eapply lookup_lt_Some; eauto).
    rewrite scan_app, Hs. apply scan_plain. exact Hx.
  - rewrite map_app, scan_app, H2. cbn [map]. apply scan_plain. exact Hx.
  - intros i t Hi Ho Hns. apply lookup_snoc_Some in Hi as [[_ Hi] | [_ <-]].
    + destruct (H3 i t Hi Ho Hns) as [j P]. exists j. apply paired_app. exact P.
    + unfold is_bracket in Hx. rewrite Ho in Hx. discriminate Hx.
  - intros j u Hj Ho. apply lookup_snoc_Some in Hj as [[_ Hj] | [_ <-]].
    + destruct (H4 j u Hj Ho) as [i P]. exists i. apply paired_app. exact P.
    + unfold is_bracket in Hx. rewrite Ho in Hx. discriminate Hx.
Qed.

(** Appending a '[' and pushing its index. *)
Lemma tok_inv_open (toks : list Token) (s : list nat) (x : Token) :
  tok_inv toks s -> opcode x = "["%char -> jump_addr x = None ->
  tok_inv (toks ++ [x]) (length toks :: s).
Proof.
  intros (H1 & H2 & H3 & H4) Hx Hjx.
  split; [|split; [|split]].
  - intros [|q] a Hq; cbn in Hq.
    + injection Hq as <-. exists x.
      split; [apply list_lookup_middle; reflexivity|]. do 2 (split; [assumption|]).
      rewrite drop_ge; [reflexivity|]. rewrite length_map, length_app. cbn. lia.
    + destruct (H1 q a Hq) as (t & Ht & Ho & Hj & Hs).
      exists t. split; [apply lookup_app_l_Some; exact Ht|]. do 2 (split; [assumption|]).
      rewrite drop_snoc_ops by (eapply lookup_lt_Some; eauto).
      rewrite scan_app, Hs, Hx. reflexivity.
  - rewrite map_app, scan_app, H2. cbn [map]. rewrite Hx. reflexivity.
  - intros i t Hi Ho Hns. apply lookup_snoc_Some in Hi as [[_ Hi] | [Hi _]].
    + destruct (H3 i t Hi Ho) as [j P].
      { intros q Hq. apply (Hns (S q)). exact Hq. }
      exists j. apply paired_app. exact P.
    + exfalso. apply (Hns 0%nat). cbn. rewrite Hi. reflexivity.
  - intros j u Hj Ho. apply lookup_snoc_Some in Hj as [[_ Hj] | [_ <-]].
    + destruct (H4 j u Hj Ho) as [i P]. exists i. apply paired_app. exact P.
    + rewrite Hx in Ho. discriminate Ho.
Qed.

Lemma paired_keep (toks toks3 : list Token) (i j : nat) :
  paired toks i j ->
  map opcode toks3 = map opcode toks ++ ["]"%char] ->
  toks3 !! i = toks !! i -> toks3 !! j = toks !! j ->
  paired toks3 i j.
Proof.
  intros (t & u & Ht & Hu & Hot & Hou & Hjt & Hju & Hm) Hops Ei Ej.
  exists t, u. rewrite Ei, Ej, Hops.
  do 6 (split; [assumption|]). apply matched_app. exact Hm.
Qed.

(** Appending a ']' that pops [a]: [a] and the new ']' point at each
    other. *)
Lemma tok_inv_close (toks toks3 : list Token) (a : nat) (rest : list nat) (u : Token) (ta : Token) :
  tok_inv toks (a :: rest) ->
  length toks3 = S (length toks) ->
  toks3 !! length toks = Some u -> opcode u = "]"%char -> jump_addr u = Some a ->
  toks !! a = Some ta ->
  toks3 !! a = Some (set_jump ta (Some (length toks))) ->
  (forall k, k <> a -> (k < length toks)%nat -> toks3 !! k = toks !! k) ->
  tok_inv toks3 rest /\ map opcode toks3 = map opcode toks ++ ["]"%char].
Proof.
  intros (H1 & H2 & H3 & H4) Hlen Hn Hou Hju Hta Ha Hother.
  set (n := length toks) in *.
  destruct (H1 0%nat a eq_refl) as (ta' & Hta' & Hoa & Hja & Hsa).
  rewrite Hta in Hta'. injection Hta' as <-.
  assert (Han : (a < n)%nat) by (eapply lookup_lt_Some; eauto).
  assert (Hops : map opcode toks3 = map opcode toks ++ ["]"%char]).
  { apply list_eq. intros k. rewrite lookup_map_opcode.
    destruct (lt_eq_lt_dec k n) as [[Hk|Hk]|Hk].
    - rewrite lookup_app_l by (rewrite length_map; exact Hk).
      rewrite lookup_map_opcode.
      destruct (decide (k = a)) as [->|Hka].
      + rewrite Ha, Hta. reflexivity.
      + rewrite Hother by assumption. reflexivity.
    - subst k. rewrite Hn, lookup_app_r by (rewrite length_map; lia).
      rewrite length_map, Nat.sub_diag. cbn [option_map]. rewrite Hou. reflexivity.
    - rewrite (lookup_ge_None_2 toks3 k) by lia.
      rewrite lookup_ge_None_2; [reflexivity|]. rewrite length_app, length_map. cbn. lia. }
  assert (Hdist : forall q a', rest !! q = Some a' -> a' <> a).
  { intros q a' Hq ->. destruct (H1 (S q) a Hq) as (t & Ht & _ & _ & Hs).
    rewrite Hsa in Hs. discriminate Hs. }
  assert (Hpair : paired toks3 a n).
  { exists (set_jump ta (Some n)), u.
    split; [exact Ha|]. split; [exact Hn|]. split; [exact Hoa|]. split; [exact Hou|].
    split; [reflexivity|]. split; [exact Hju|].
    rewrite Hops. split; [exact Han|].
    split; [rewrite lookup_app_l by (rewrite length_map; lia);
            rewrite lookup_map_opcode, Hta, <- Hoa; reflexivity|].
    split; [rewrite lookup_app_r by (rewrite length_map; lia);
            rewrite length_map, Nat.sub_diag; reflexivity|].
    rewrite drop_app_le by (rewrite length_map; lia).
    rewrite take_app_length'; [exact Hsa|].
    rewrite length_drop, length_map. lia. }
  split; [|exact Hops].
  split; [|split; [|split]].
  - intros q a' Hq. pose proof (Hdist q a' Hq) as Hne.
    destruct (H1 (S q) a' Hq) as (t & Ht & Ho & Hj & Hs).
    assert (Ha'n : (a' < n)%nat) by (eapply lookup_lt_Some; eauto).
    exists t. rewrite Hother by assumption.
    split; [exact Ht|]. do 2 (split; [assumption|]).
    rewrite Hops, drop_app_le by (rewrite length_map; lia).
    rewrite scan_app, Hs. reflexivity.
  - rewrite Hops, scan_app, H2. reflexivity.
  - intros i t Hi Ho Hns.
    destruct (decide (i = a)) as [->|Hia]; [exists n; exact Hpair|].
    assert (Hi3 : (i < S n)%nat) by (rewrite <- Hlen; eapply lookup_lt_Some; eauto).
    destruct (decide (i = n)) as [->|Hin].
    { rewrite Hn in Hi. injection Hi as <-. rewrite Hou in Ho. discriminate Ho. }
    rewrite Hother in Hi by (try assumption; lia).
    destruct (H3 i t Hi Ho) as [j Pj].
    { intros [|q] Hq; cbn in Hq; [injection Hq; congruence | exact (Hns q Hq)]. }
    exists j. apply (paired_keep toks); [exact Pj | exact Hops | |].
    + apply Hother; [assumption | lia].
    + destruct Pj as (t' & u' & _ & Hu' & _ & Hou' & _).
      apply Hother.
      * intros ->. rewrite Hta in Hu'. injection Hu' as <-. rewrite Hoa in Hou'.
        discriminate Hou'.
      * eapply lookup_lt_Some; eauto.
  - intros j u' Hj Ho.
    destruct (decide (j = n)) as [->|Hjn]; [exists a; exact Hpair|].
    destruct (decide (j = a)) as [->|Hja'].
    { rewrite Ha in Hj. injection Hj as <-. cbn in Ho. rewrite Hoa in Ho. discriminate Ho. }
    assert (Hj3 : (j < S n)%nat) by (rewrite <- Hlen; eapply lookup_lt_Some; eauto).
    rewrite Hother in Hj by (try assumption; lia).
    destruct (H4 j u' Hj Ho) as [i Pi].
    exists i. apply (paired_keep toks); [exact Pi | exact Hops | |].
    + destruct Pi as (t' & _ & Ht' & _ & _ & _ & Hjt' & _).
      apply Hother.
      * intros ->. rewrite Hta in Ht'. injection Ht' as <-. rewrite Hja in Hjt'.
        discriminate Hjt'.
      * eapply lookup_lt_Some; eauto.
    + apply Hother; [assumption | lia].
Qed.

Lemma tok_code_inv (ln : nat) (c : ascii) (st : TokState) :
  tok_inv (tokens st) (scopes st) ->
  scan 0 (map opcode (tokens st) ++ [c]) <> None ->
  exists st', tok_code ln c st = inr st' /\
    tok_inv (tokens st') (scopes st') /\
    map opcode (tokens st') = map opcode (tokens st) ++ [c].
Proof.
  intros Hinv Hscan. unfold tok_code.
  destruct (Ascii.eqb_spec c "["%char) as [->|Hno].
  { eexists; split; [reflexivity|]. cbn [tokens scopes].
    split; [apply tok_inv_open; [exact Hinv | reflexivity | reflexivity]|].
    rewrite map_app. reflexivity. }
  destruct (Ascii.eqb_spec c "]"%char) as [->|Hnc].
  - destruct st as [toks s w]; cbn [tokens scopes] in *.
    destruct s as [|a rest].
    { exfalso. apply Hscan. destruct Hinv as (_ & H2 & _).
      rewrite scan_app, H2. reflexivity. }
    pose proof Hinv as (H1 & _).
    destruct (H1 0%nat a eq_refl) as (ta & Hta & _).
    assert (Han : (a < length toks)%nat) by (eapply lookup_lt_Some; eauto).
    set (toks1 := toks ++ [set_jump (inst "]") (Some a)]).
    assert (L1 : length toks1 = S (length toks))
      by (unfold toks1; rewrite length_app; cbn; lia).
    assert (E1a : toks1 !! a = Some ta) by (apply lookup_app_l_Some; exact Hta).
    rewrite E1a, L1, Nat.sub_succ, Nat.sub_0_r. cbn [default]. unfold id.
    set (toks2 := <[a := set_jump ta (Some (length toks))]> toks1).
    assert (L2 : length toks2 = S (length toks)) by (unfold toks2; rewrite length_insert; exact L1).
    rewrite L2, Nat.sub_succ, Nat.sub_0_r.
    assert (E2n : toks2 !! length toks = Some (set_jump (inst "]") (Some a))).
    { unfold toks2. rewrite list_lookup_insert_ne by lia.
      apply list_lookup_middle. reflexivity. }
    rewrite E2n. cbn [default]. unfold id.
    eexists; split; [reflexivity|]. cbn [tokens scopes].
    apply (tok_inv_close toks _ a rest (mkToken "]" (Some a) (S ln)) ta Hinv).
    + rewrite length_insert. exact L2.
    + apply list_lookup_insert_eq. lia.
    + reflexivity.
    + reflexivity.
    + exact Hta.
    + rewrite list_lookup_insert_ne by lia. unfold toks2.
      apply list_lookup_insert_eq. lia.
    + intros k Hka Hk. rewrite list_lookup_insert_ne by lia. unfold toks2.
      rewrite list_lookup_insert_ne by congruence. unfold toks1.
      apply lookup_app_l. exact Hk.
  - eexists; split; [reflexivity|]. cbn [tokens scopes].
    split; [|rewrite map_app; reflexivity].
    apply tok_inv_plain; [exact Hinv|]. cbn.
    unfold is_bracket. apply Bool.orb_false_iff.
    split; apply Ascii.eqb_neq; assumption.
Qed.

Lemma tok_line_inv (ln : nat) (cs : list ascii) (st : TokState) :
  tok_inv (tokens st) (scopes st) ->
  scan 0 (map opcode (tokens st) ++ line_ops cs) <> None ->
  exists st', tok_line ln cs st = inr st' /\
    tok_inv (tokens st') (scopes st') /\
    map opcode (tokens st') = map opcode (tokens st) ++ line_ops cs.
Proof.
  revert st. induction cs as [|c cs IH]; intros st Hinv Hscan; cbn [tok_line line_ops] in *.
  - exists st. rewrite app_nil_r. auto.
  - destruct (is_code c).
    + rewrite (app_assoc _ [c] (line_ops cs)) in Hscan.
      destruct (tok_code_inv ln c st Hinv (scan_prefix _ _ _ Hscan))
        as (st1 & E1 & Hinv1 & Hops1).
      rewrite E1. rewrite <- Hops1 in Hscan.
      destruct (IH st1 Hinv1 Hscan) as (st2 & E2 & Hinv2 & Hops2).
      exists st2. split; [exact E2|]. split; [exact Hinv2|].
      rewrite Hops2, Hops1, <- app_assoc. reflexivity.
    + destruct (is_comment c).
      * exists st. rewrite app_nil_r. auto.
      * destruct (is_whitespace c); [apply IH; assumption|].
        apply (IH (warn ln c st)); assumption.
Qed.

Lemma tok_lines_inv (ln : nat) (ls : list (list ascii)) (st : TokState) :
  tok_inv (tokens st) (scopes st) ->
  scan 0 (map opcode (tokens st) ++ program_ops ls) <> None ->
  exists st', tok_lines ln ls st = inr st' /\
    tok_inv (tokens st') (scopes st') /\
    map opcode (tokens st') = map opcode (tokens st) ++ program_ops ls.
Proof.
  unfold program_ops.
  revert ln st. induction ls as [|l ls IH]; intros ln st Hinv Hscan; cbn [tok_lines map concat] in *.
  - exists st. rewrite app_nil_r. auto.
  - rewrite app_assoc in Hscan.
    destruct (tok_line_inv ln l st Hinv (scan_prefix _ _ _ Hscan))
      as (st1 & E1 & Hinv1 & Hops1).
    rewrite E1. rewrite <- Hops1 in Hscan.
    destruct (IH (S ln) st1 Hinv1 Hscan) as (st2 & E2 & Hinv2 & Hops2).
    exists st2. split; [exact E2|]. split; [exact Hinv2|].
    rewrite Hops2, Hops1, <- app_assoc. reflexivity.
Qed.

(** C1: when the opcodes of the program are balanced, [tokenize_lines]
    succeeds, keeps the opcodes in order, and every '[' at [i] and every
    ']' at [j] are paired: the '[' targets a later ']' at [j], that ']'
    targets [i], and the opcodes strictly between them are balanced, so
    [j] is the ']' that closes [i] under stack discipline. *)
Theorem assembly_pairs_brackets (lines : list (list ascii)) :
  balanced (program_ops lines) = true ->
  exists toks, tokenize_lines lines = inr toks /\
    map opcode toks = program_ops lines /\
    (forall i t, toks !! i = Some t -> opcode t = "["%char ->
       exists j, jump_addr t = Some j /\ (i < j)%nat /\ paired toks i j) /\
    (forall j u, toks !! j = Some u -> opcode u = "]"%char ->
       exists i, jump_addr u = Some i /\ (i < j)%nat /\ paired toks i j).
Proof.
  unfold balanced. intros Hb.
  destruct (scan 0 (program_ops lines)) as [[|d]|] eqn:Hs; try discriminate Hb.
  destruct (tok_lines_inv 0 lines tok_init tok_inv_init) as (st & E & Hinv & Hops).
  { cbn. rewrite Hs. discriminate. }
  cbn [tokens map app tok_init] in Hops.
  destruct Hinv as (_ & H2 & H3 & H4).
  rewrite Hops, Hs in H2. injection H2 as H2.
  destruct (scopes st) as [|a rest] eqn:Hst; [|discriminate H2].
  exists (tokens st). split.
  { unfold tokenize_lines, tokenize_lines_st. rewrite E, Hst. reflexivity. }
  split; [exact Hops|]. split.
  - intros i t Hi Ho.
    destruct (H3 i t Hi Ho) as [j Pj]; [intros q Hq; discriminate Hq|].
    exists j. pose proof Pj as (t' & u & Ht' & _ & _ & _ & Hj & _ & Hm & _).
    rewrite Hi in Ht'. injection Ht' as <-. auto.
  - intros j u Hj Ho.
    destruct (H4 j u Hj Ho) as [i Pi].
    exists i. pose proof Pi as (t & u' & _ & Hu' & _ & _ & _ & Hi & Hm & _).
    rewrite Hj in Hu'. injection Hu' as <-. auto.
Qed.

Lemma assembly_pairs_brackets_witness :
  exists toks, tokenize_lines [src "+[>[-]<]"; src "[.] # done"] = inr toks /\
    map opcode toks = program_ops [src "+[>[-]<]"; src "[.] # done"] /\
    (forall i t, toks !! i = Some t -> opcode t = "["%char ->
       exists j, jump_addr t = Some j /\ (i < j)%nat /\ paired toks i j) /\
    (forall j u, toks !! j = Some u -> opcode u = "]"%char ->
       exists i, jump_addr u = Some i /\ (i < j)%nat /\ paired toks i j).
Proof.
  apply assembly_pairs_brackets. reflexivity.
Defined.

(* ------------------------------------------------------------------ *)
(** ** Further properties of the interpreter *)

Lemma is_code_cases (c : ascii) :
  is_code c = true ->
  c = "<"%char \/ c = ">"%char \/ c = "+"%char \/ c = "-"%char \/
  c = ","%char \/ c = "."%char \/ c = "["%char \/ c = "]"%char.
Proof.
  all_chars c; try (intros H; discriminate H);
    intros _; repeat first [left; reflexivity | right]; try reflexivity.
Qed.

Lemma is_code_other (c : ascii) :
  c <> "<"%char -> c <> ">"%char -> c <> "+"%char -> c <> "-"%char ->
  c <> ","%char -> c <> "."%char -> c <> "["%char -> c <> "]"%char ->
  is_code c = false.
Proof.
  intros H1 H2 H3 H4 H5 H6 H7 H8. apply Bool.not_true_iff_false. intros H.
  apply is_code_cases in H. intuition.
Qed.

Lemma effects_same (t : Token) (st st1 : State) :
  cells st1 = cells st -> out st1 = out st -> inp st1 = inp st -> diag st1 = diag st ->
  step_effects t st st1.
Proof.
  intros E1 E2 E3 E4. unfold step_effects. rewrite E1, E2, E3, E4.
  split; [reflexivity|]. split; [reflexivity|]. split; [exists []; rewrite app_nil_r; reflexivity|].
  split; [left; reflexivity|]. split; [left; reflexivity|]. auto.
Qed.

Lemma effects_cell (t : Token) (st : State) (i : nat) (v : Z) (inp' : list (option N)) :
  (inp' = inp st \/ exists c, inp st = c :: inp') ->
  (Forall (fun v => 0 <= v <= 255) (cells st) -> 0 <= v <= 255) ->
  step_effects t st (mkState i (dp st) (<[dp st := v]> (cells st)) (out st) inp' (diag st)).
Proof.
  intros Hi Hv. unfold step_effects; cbn [cells out inp diag dp].
  split; [intros k Hk; apply list_lookup_insert_ne; congruence|].
  split; [apply length_insert|]. split; [exists []; rewrite app_nil_r; reflexivity|].
  split; [exact Hi|]. split; [left; reflexivity|].
  intros H. apply Forall_insert; auto.
Qed.

(** What one iteration that does not panic changes. *)
Lemma exec_next_effects (strict : bool) (t : Token) (st st' : State) :
  exec_token strict t st = Next st' -> step_effects t st st'.
Proof.
  intros Hs.
  destruct t as [op ja l]. unfold exec_token in Hs; cbn [opcode jump_addr line] in Hs.
  destruct (ascii_dec op "<") as [->|n1].
  { destruct (0 <? dp st)%nat; [|destruct strict]; try discriminate Hs;
      injection Hs as <-; apply effects_same; reflexivity. }
  destruct (ascii_dec op ">") as [->|n2].
  { destruct (dp st <? data_size)%nat; [|destruct strict]; try discriminate Hs;
      injection Hs as <-; apply effects_same; reflexivity. }
  destruct (ascii_dec op "+") as [->|n3].
  { destruct strict; [destruct (checked_add1 (cur st)) eqn:E|]; try discriminate Hs;
      injection Hs as <-; unfold with_ip, with_cur; cbn [ip dp cells out inp diag];
      apply effects_cell; auto.
    - intros H. eapply checked_add1_range; [|exact E]. pose proof (cur_range st H). lia.
    - intros _. apply mod256_range. }
  destruct (ascii_dec op "-") as [->|n4].
  { destruct strict; [destruct (checked_sub1 (cur st)) eqn:E|]; try discriminate Hs;
      injection Hs as <-; unfold with_ip, with_cur; cbn [ip dp cells out inp diag];
      apply effects_cell; auto.
    - intros H. eapply checked_sub1_range; [|exact E]. pose proof (cur_range st H). lia.
    - intros _. apply mod256_range. }
  destruct (ascii_dec op ".") as [->|n5].
  { injection Hs as <-. unfold step_effects; cbn [cells out inp diag].
    split; [reflexivity|]. split; [reflexivity|]. split; [eexists; reflexivity|].
    split; [left; reflexivity|]. split; [left; reflexivity|]. auto. }
  destruct (ascii_dec op ",") as [->|n6].
  { unfold read_char in Hs.
    destruct (inp st) as [|[c|] rest] eqn:Hi; try discriminate Hs.
    injection Hs as <-. apply effects_cell.
    - right. exists (Some c). exact Hi.
    - intros _. apply mod256_range. }
  destruct (ascii_dec op "[") as [->|n7].
  { destruct (cur st =? 0); [destruct ja as [j|]|]; try discriminate Hs;
      injection Hs as <-; apply effects_same; reflexivity. }
  destruct (ascii_dec op "]") as [->|n8].
  { destruct (negb (cur st =? 0)); [destruct ja as [j|]|]; try discriminate Hs;
      injection Hs as <-; apply effects_same; reflexivity. }
  injection Hs as <-. unfold step_effects; cbn [cells out inp diag opcode line].
  split; [reflexivity|]. split; [reflexivity|]. split; [exists []; rewrite app_nil_r; reflexivity|].
  split; [left; reflexivity|]. split; [|auto].
  right. split; [|reflexivity]. apply is_code_other; assumption.
Qed.


(** Strict and permissive iterations agree, except on the four boundary
    panics of strict mode. *)
Lemma exec_strict_permissive (t : Token) (st : State) :
  0 <= cur st <= 255 ->
  (forall st', exec_token true t st = Next st' -> exec_token false t st = Next st') /\
  (forall f l st', exec_token true t st = Panic f l st' ->
     f = InputFailure \/ f = MissingJump -> exec_token false t st = Panic f l st').
Proof.
  intros Hc.
  destruct t as [op ja l0]. unfold exec_token; cbn [opcode jump_addr line].
  destruct (ascii_dec op "<") as [->|n1].
  { destruct (0 <? dp st)%nat; split; intros; try discriminate; try assumption.
    destruct H0 as [->| ->]; discriminate H. }
  destruct (ascii_dec op ">") as [->|n2].
  { destruct (dp st <? data_size)%nat; split; intros; try discriminate; try assumption.
    destruct H0 as [->| ->]; discriminate H. }
  destruct (ascii_dec op "+") as [->|n3].
  { unfold checked_add1, wrapping_add1.
    destruct (Z.leb_spec (cur st + 1) 255); split; intros; try discriminate.
    - rewrite Z.mod_small by lia. exact H0.
    - destruct H1 as [->| ->]; discriminate H0. }
  destruct (ascii_dec op "-") as [->|n4].
  { unfold checked_sub1, wrapping_sub1.
    destruct (Z.leb_spec 0 (cur st - 1)); split; intros; try discriminate.
    - rewrite Z.mod_small by lia. exact H0.
    - destruct H1 as [->| ->]; discriminate H0. }
  split; intros; assumption.
Qed.

Lemma scan_close_none (d : nat) (c : ascii) :
  scan d [c] = None -> c = "]"%char /\ d = O.
Proof.
  cbn. destruct (Ascii.eqb_spec c "["%char); [discriminate|].
  destruct (Ascii.eqb_spec c "]"%char); [|discriminate].
  destruct d; [auto | discriminate].
Qed.

Lemma tok_code_fail (ln : nat) (c : ascii) (st : TokState) :
  tok_inv (tokens st) (scopes st) ->
  scan 0 (map opcode (tokens st) ++ [c]) = None ->
  tok_code ln c st = inl (UnmatchedClose (S ln)).
Proof.
  intros (_ & H2 & _) Hs. rewrite scan_app, H2 in Hs.
  apply scan_close_none in Hs as [-> Hl].
  destruct (scopes st) eqn:E; [|discriminate Hl].
  unfold tok_code. rewrite E. reflexivity.
Qed.

Lemma tok_line_fail (ln : nat) (cs : list ascii) (st : TokState) :
  tok_inv (tokens st) (scopes st) ->
  scan 0 (map opcode (tokens st) ++ line_ops cs) = None ->
  tok_line ln cs st = inl (UnmatchedClose (S ln)).
Proof.
  revert st. induction cs as [|c cs IH]; intros st Hinv Hs; cbn [tok_line line_ops] in *.
  - rewrite app_nil_r, (proj1 (proj2 Hinv)) in Hs. discriminate Hs.
  - destruct (is_code c).
    + destruct (scan 0 (map opcode (tokens st) ++ [c])) eqn:E1.
      * destruct (tok_code_inv ln c st Hinv) as (st1 & E & Hinv1 & Hops1); [congruence|].
        rewrite E. apply IH; [exact Hinv1|].
        rewrite Hops1, <- app_assoc. exact Hs.
      * rewrite (tok_code_fail ln c st Hinv E1). reflexivity.
    + destruct (is_comment c).
      * rewrite app_nil_r, (proj1 (proj2 Hinv)) in Hs. discriminate Hs.
      * destruct (is_whitespace c); apply IH; assumption.
Qed.

Lemma program_ops_cons (l : list ascii) (ls : list (list ascii)) :
  program_ops (l :: ls) = line_ops l ++ program_ops ls.
Proof. reflexivity. Qed.

Lemma tok_lines_fail (ln : nat) (ls : list (list ascii)) (st : TokState) :
  tok_inv (tokens st) (scopes st) ->
  scan 0 (map opcode (tokens st) ++ program_ops ls) = None ->
  exists k, (k < length ls)%nat /\
    tok_lines ln ls st = inl (UnmatchedClose (S (ln + k))) /\
    scan 0 (map opcode (tokens st) ++ program_ops (take (S k) ls)) = None /\
    scan 0 (map opcode (tokens st) ++ program_ops (take k ls)) <> None.
Proof.
  revert ln st. induction ls as [|l ls IH]; intros ln st Hinv Hs.
  - cbn in Hs. rewrite app_nil_r, (proj1 (proj2 Hinv)) in Hs. discriminate Hs.
  - rewrite program_ops_cons, app_assoc in Hs. cbn [tok_lines].
    destruct (scan 0 (map opcode (tokens st) ++ line_ops l)) eqn:E1.
    + destruct (tok_line_inv ln l st Hinv) as (st1 & E & Hinv1 & Hops1); [congruence|].
      rewrite <- Hops1 in Hs.
      destruct (IH (S ln) st1 Hinv1 Hs) as (k & Hk & Ek & Hn & Hp).
      exists (S k). rewrite E. cbn [length take]. rewrite !program_ops_cons, !app_assoc, <- Hops1.
      split; [lia|]. split; [rewrite Ek; do 3 f_equal; lia|]. auto.
    + exists O. split; [cbn; lia|]. cbn [take].
      rewrite (tok_line_fail ln l st Hinv E1), Nat.add_0_r.
      split; [reflexivity|]. rewrite program_ops_cons. cbn [program_ops concat map].
      rewrite app_nil_r. split; [exact E1|].
      rewrite app_nil_r, (proj1 (proj2 Hinv)). discriminate.
Qed.

(** A successful assembly ends in the invariant with an empty stack, and
    keeps the program's opcodes. *)
Lemma tokenize_ok_inv (lines : list (list ascii)) (toks : list Token) :
  tokenize_lines lines = inr toks ->
  tok_inv toks [] /\ map opcode toks = program_ops lines.
Proof.
  unfold tokenize_lines, tokenize_lines_st. intros H.
  destruct (scan 0 (program_ops lines)) as [d|] eqn:Hs.
  - destruct (tok_lines_inv 0 lines tok_init tok_inv_init) as (st & E & Hinv & Hops).
    { cbn. rewrite Hs. discriminate. }
    rewrite E in H. destruct (scopes st) eqn:Hsc; [|discriminate H].
    injection H as <-. split; [exact Hinv|]. exact Hops.
  - destruct (tok_lines_fail 0 lines tok_init tok_inv_init) as (k & _ & E & _).
    { cbn. exact Hs. }
    rewrite E in H. discriminate H.
Qed.


Lemma lookup_map_gen {A B : Type} (f : A -> B) (l : list A) (k : nat) :
  map f l !! k = option_map f (l !! k).
Proof.
  revert k. induction l as [|x l IH]; intros k; [reflexivity|].
  destruct k; cbn; [reflexivity | apply IH].
Qed.

(** Writing a token with the same opcode and line at an index. *)
Lemma insert_keep_op_line (l : list Token) (a : nat) (y : Token) :
  (forall x, l !! a = Some x -> op_line y = op_line x) ->
  map op_line (<[a := y]> l) = map op_line l.
Proof.
  intros H. destruct (decide (a < length l)%nat) as [Ha|Ha].
  - apply list_eq. intros k. rewrite !lookup_map_gen.
    destruct (decide (k = a)) as [->|Hk].
    + rewrite list_lookup_insert_eq by exact Ha.
      destruct (lookup_lt_is_Some_2 l a Ha) as [x Hx]. rewrite Hx. cbn. f_equal. apply H. exact Hx.
    + rewrite list_lookup_insert_ne by congruence. reflexivity.
  - rewrite list_insert_ge by lia. reflexivity.
Qed.

Lemma tok_code_op_line (ln : nat) (c : ascii) (st st' : TokState) :
  tok_code ln c st = inr st' ->
  map op_line (tokens st') = map op_line (tokens st) ++ [(c, S ln)] /\ warns st' = warns st.
Proof.
  unfold tok_code. intros H.
  destruct (Ascii.eqb_spec c "["%char) as [->|Hno].
  { injection H as <-. cbn [tokens warns]. rewrite map_app. auto. }
  destruct (Ascii.eqb_spec c "]"%char) as [->|Hnc].
  - destruct st as [toks s w]; cbn [tokens scopes warns] in *.
    destruct s as [|a rest]; [discriminate H|]. injection H as <-. cbn [tokens warns].
    split; [|reflexivity].
    set (n := length toks).
    set (x1 := set_jump (inst "]") (Some a)).
    set (toks1 := toks ++ [x1]).
    assert (L1 : length toks1 = S n) by (unfold toks1; rewrite length_app; cbn; lia).
    assert (E1n : toks1 !! n = Some x1) by (apply list_lookup_middle; reflexivity).
    set (toks2 := <[a := set_jump (default (inst "]") (toks1 !! a)) (Some (length toks1 - 1)%nat)]> toks1).
    assert (H12 : map op_line toks2 = map op_line toks1).
    { apply insert_keep_op_line. intros x Hx. rewrite Hx. reflexivity. }
    assert (L2 : length toks2 = S n) by (unfold toks2; rewrite length_insert; exact L1).
    assert (Hy : exists y2, toks2 !! n = Some y2 /\ op_line y2 = ("]"%char, 0%nat)).
    { pose proof (f_equal (fun m => m !! n) H12) as E. cbn beta in E.
      rewrite !lookup_map_gen, E1n in E.
      destruct (toks2 !! n) as [y2|]; [|discriminate E].
      exists y2. split; [reflexivity|]. injection E as E1 E2.
      unfold op_line. rewrite E1, E2. reflexivity. }
    destruct Hy as (y2 & Hy2 & Hoy2).
    rewrite L2, Nat.sub_succ, Nat.sub_0_r. fold n. rewrite Hy2. cbn [default]. unfold id.
    apply list_eq. intros k. rewrite lookup_map_gen.
    destruct (lt_eq_lt_dec k n) as [[Hk|Hk]|Hk].
    + rewrite list_lookup_insert_ne by lia.
      rewrite <- lookup_map_gen, H12. unfold toks1. rewrite map_app.
      rewrite !lookup_app_l by (rewrite length_map; lia). reflexivity.
    + subst k. rewrite list_lookup_insert_eq by lia.
      rewrite lookup_app_r by (rewrite length_map; lia).
      rewrite length_map, Nat.sub_diag. cbn.
      unfold op_line in Hoy2. injection Hoy2 as Ho _. unfold op_line; cbn [opcode set_line line]. rewrite Ho. reflexivity.
    + rewrite lookup_ge_None_2 by (rewrite length_insert; lia).
      rewrite lookup_ge_None_2; [reflexivity|]. rewrite length_app, length_map. cbn. lia.
  - injection H as <-. cbn [tokens warns]. rewrite map_app. auto.
Qed.

Lemma tok_line_op_line (ln : nat) (cs : list ascii) (st st' : TokState) :
  tok_line ln cs st = inr st' ->
  map op_line (tokens st') = map op_line (tokens st) ++ map (fun c => (c, S ln)) (line_ops cs) /\
  warns st' = warns st ++ map (fun c => (S ln, c)) (line_unknowns cs).
Proof.
  revert st. induction cs as [|c cs IH]; intros st H; cbn [tok_line line_ops line_unknowns] in *.
  - injection H as <-. rewrite !app_nil_r. auto.
  - destruct (is_code c).
    + destruct (tok_code ln c st) as [e|st1] eqn:E; [discriminate H|].
      destruct (tok_code_op_line ln c st st1 E) as [O1 W1].
      destruct (IH st1 H) as [O2 W2]. rewrite O2, W2, O1, W1, <- app_assoc. auto.
    + destruct (is_comment c).
      * injection H as <-. rewrite !app_nil_r. auto.
      * destruct (is_whitespace c); [apply IH; exact H|].
        destruct (IH _ H) as [O2 W2]. cbn [tokens warns warn] in O2, W2.
        rewrite O2, W2, <- app_assoc. auto.
Qed.

Lemma tok_lines_op_line (ln : nat) (ls : list (list ascii)) (st st' : TokState) :
  tok_lines ln ls st = inr st' ->
  map op_line (tokens st') = map op_line (tokens st) ++ ops_with_lines ln ls /\
  warns st' = warns st ++ unknowns_with_lines ln ls.
Proof.
  revert ln st. induction ls as [|l ls IH]; intros ln st H; cbn [tok_lines ops_with_lines unknowns_with_lines] in *.
  - injection H as <-. rewrite !app_nil_r. auto.
  - destruct (tok_line ln l st) as [e|st1] eqn:E; [discriminate H|].
    destruct (tok_line_op_line ln l st st1 E) as [O1 W1].
    destruct (IH (S ln) st1 H) as [O2 W2]. rewrite O2, W2, O1, W1, <- !app_assoc. auto.
Qed.

Lemma ops_with_lines_in (ln : nat) (ls : list (list ascii)) (c : ascii) (m : nat) :
  In (c, m) (ops_with_lines ln ls) ->
  exists k l, m = S (ln + k) /\ ls !! k = Some l /\ In c (line_ops l).
Proof.
  revert ln. induction ls as [|l ls IH]; intros ln H; cbn [ops_with_lines] in H; [contradiction|].
  apply in_app_or in H as [H|H].
  - apply in_map_iff in H as (c' & E & Hc). injection E as <- <-.
    exists O, l. rewrite Nat.add_0_r. auto.
  - destruct (IH (S ln) H) as (k & l' & -> & Hk & Hc).
    exists (S k), l'. split; [lia|]. auto.
Qed.

Lemma program_ops_app (ls1 ls2 : list (list ascii)) :
  program_ops (ls1 ++ ls2) = program_ops ls1 ++ program_ops ls2.
Proof. unfold program_ops. rewrite map_app. apply concat_app. Qed.

Lemma scan_take_mono (ls : list (list ascii)) (m m' : nat) :
  (m <= m')%nat -> scan 0 (program_ops (take m ls)) = None ->
  scan 0 (program_ops (take m' ls)) = None.
Proof.
  intros Hm H. replace m' with (m + (m' - m))%nat by lia.
  rewrite <- take_take_drop, program_ops_app, scan_app, H. reflexivity.
Qed.

Lemma tokenize_lines_st_ok (lines : list (list ascii)) (toks : list Token) :
  tokenize_lines lines = inr toks ->
  exists st, tok_lines 0 lines tok_init = inr st /\ scopes st = [] /\ tokens st = toks.
Proof.
  unfold tokenize_lines, tokenize_lines_st. intros H.
  destruct (tok_lines 0 lines tok_init) as [e|st]; [discriminate H|].
  destruct (scopes st) eqn:E; [|discriminate H]. injection H as <-. eauto.
Qed.

(** Every token of a successful [tokenize_lines] carries the 1-based number
    of the line its opcode came from: the (opcode, line) pairs of the stream
    are the opcodes of each line, cut at its first comment character, in
    order, each paired with its line number; so every token's line is in
    [1, number of lines] and names a line that holds that opcode. *)
Theorem tokenize_lines_op_line (lines : list (list ascii)) (toks : list Token) :
  tokenize_lines lines = inr toks ->
  map op_line toks = ops_with_lines 0 lines /\
  (forall k t, toks !! k = Some t ->
     exists l, (1 <= line t <= length lines)%nat /\ lines !! (line t - 1)%nat = Some l /\
       In (opcode t) (line_ops l)).
Proof.
  intros H. destruct (tokenize_lines_st_ok lines toks H) as (st & E & _ & <-).
  destruct (tok_lines_op_line 0 lines tok_init st E) as [O _].
  cbn [tokens tok_init map app] in O. split; [exact O|].
  intros k t Hk.
  assert (Hin : In (op_line t) (ops_with_lines 0 lines)).
  { rewrite <- O. apply in_map. apply list_elem_of_In. eapply list_elem_of_lookup_2. exact Hk. }
  unfold op_line in Hin. apply ops_with_lines_in in Hin as (k' & l & Hl & Hk' & Hc).
  exists l. rewrite Hl. cbn [plus]. rewrite Nat.sub_succ, Nat.sub_0_r.
  split; [|auto]. split; [lia|]. apply lookup_lt_Some in Hk'. lia.
Qed.

(** The "Unknown character" messages of a successful [tokenize_lines] are
    exactly the characters of each line, before its first comment
    character, that are neither opcodes nor whitespace, in order, each with
    its 1-based line number. *)
Theorem tokenize_lines_warnings (lines : list (list ascii)) (st : TokState) :
  tokenize_lines_st lines = inr st -> warns st = unknowns_with_lines 0 lines.
Proof.
  unfold tokenize_lines_st. intros H.
  destruct (tok_lines 0 lines tok_init) as [e|st1] eqn:E; [discriminate H|].
  destruct (scopes st1); [|discriminate H]. injection H as <-.
  exact (proj2 (tok_lines_op_line 0 lines tok_init st1 E)).
Qed.

(** What [tokenize_lines] returns is decided by the bracket count of the
    program's opcodes: it succeeds exactly when they are balanced; it fails
    the final [assert_eq!] with [n] pending '[' exactly when no ']' is
    unmatched and [n > 0] are left open; it panics at line [l] exactly when
    [l] is the first line at which the count of ']' exceeds the count of
    '['. *)
Theorem tokenize_lines_outcome (lines : list (list ascii)) :
  ((exists toks, tokenize_lines lines = inr toks) <-> balanced (program_ops lines) = true) /\
  (forall n, tokenize_lines lines = inl (DanglingOpen n) <->
     (0 < n)%nat /\ scan 0 (program_ops lines) = Some n) /\
  (forall l, tokenize_lines lines = inl (UnmatchedClose l) <->
     (1 <= l <= length lines)%nat /\ scan 0 (program_ops (take l lines)) = None /\
     scan 0 (program_ops (take (l - 1) lines)) <> None).
Proof.
  assert (Whole : forall l, (l <= length lines)%nat -> scan 0 (program_ops (take l lines)) = None ->
            scan 0 (program_ops lines) = None).
  { intros l Hl Hn. rewrite <- (take_ge lines (length lines)) by lia.
    exact (scan_take_mono lines l _ Hl Hn). }
  unfold balanced.
  destruct (scan 0 (program_ops lines)) as [d|] eqn:Hs.
  - destruct (tok_lines_inv 0 lines tok_init tok_inv_init) as (st & E & Hinv & Hops).
    { cbn. rewrite Hs. discriminate. }
    destruct Hinv as (_ & H2 & _). cbn [tokens tok_init map app] in Hops.
    rewrite Hops, Hs in H2. injection H2 as H2.
    assert (Hres : tokenize_lines lines =
                   match scopes st with [] => inr (tokens st)
                   | _ => inl (DanglingOpen (length (scopes st))) end).
    { unfold tokenize_lines, tokenize_lines_st. rewrite E. destruct (scopes st); reflexivity. }
    rewrite Hres.
    split; [|split].
    + destruct (scopes st) as [|a r]; cbn in H2; subst d.
      * split; [reflexivity | intros _; eauto].
      * split; [intros [toks Ht]; discriminate Ht | discriminate].
    + intros n. destruct (scopes st) as [|a r]; cbn in H2; subst d.
      * split; [discriminate | intros [Hn Hn']; injection Hn' as <-; lia].
      * split; [intros Hn; injection Hn as <-; split; [lia | reflexivity]|].
        intros [_ Hn]. injection Hn as <-. reflexivity.
    + intros l. split; [destruct (scopes st); discriminate|].
      intros (Hl & Hn & _). pose proof (Whole l (proj2 Hl) Hn) as W. congruence.
  - destruct (tok_lines_fail 0 lines tok_init tok_inv_init) as (k & Hk & E & Hn & Hp).
    { cbn. exact Hs. }
    cbn [tokens tok_init map app] in Hn, Hp.
    assert (Hres : tokenize_lines lines = inl (UnmatchedClose (S k))).
    { unfold tokenize_lines, tokenize_lines_st. rewrite E. reflexivity. }
    rewrite Hres.
    split; [|split].
    + split; [intros [toks Ht]; discriminate Ht | discriminate].
    + intros n. split; [discriminate | intros [_ Hn']; discriminate Hn'].
    + intros l. split.
      * intros Hl. injection Hl as <-. rewrite Nat.sub_succ, Nat.sub_0_r.
        split; [lia|]. auto.
      * intros (Hl & Hl1 & Hl2).
        destruct (lt_eq_lt_dec l (S k)) as [[Hlt|Heq]|Hgt]; [|subst l; reflexivity|].
        -- exfalso. apply Hp. apply (scan_take_mono lines l k); [lia | exact Hl1].
        -- exfalso. apply Hl2. apply (scan_take_mono lines (S k) (l - 1)); [lia | exact Hn].
Qed.

Lemma line_ops_code (cs : list ascii) : Forall (fun c => is_code c = true) (line_ops cs).
Proof.
  induction cs as [|c cs IH]; cbn [line_ops]; [constructor|].
  destruct (is_code c) eqn:E; [constructor; assumption|].
  destruct (is_comment c); [constructor | exact IH].
Qed.

Lemma program_ops_code (lines : list (list ascii)) :
  Forall (fun c => is_code c = true) (program_ops lines).
Proof.
  unfold program_ops. apply Forall_concat, Forall_forall.
  intros x Hx. apply list_elem_of_In, in_map_iff in Hx as (l & <- & _). apply line_ops_code.
Qed.

(** A stream produced by [tokenize_lines] never reaches the
    "Unknown instruction" branch of [run_brainfuck]: every opcode is one of
    the eight, so no such message is ever printed. *)
Theorem assembled_no_unknown_instruction (lines : list (list ascii)) (toks : list Token)
  (strict : bool) (input : list (option N)) (st : State) :
  tokenize_lines lines = inr toks ->
  reaches toks strict (init_state input) st -> diag st = [].
Proof.
  intros Ht Hr. destruct (tokenize_ok_inv lines toks Ht) as [_ Hops].
  pose proof (program_ops_code lines) as Hc. rewrite <- Hops in Hc.
  induction Hr as [|st st' _ IH _ Hs]; [reflexivity|].
  unfold step in Hs. destruct (toks !! ip st) as [t|] eqn:Et; [|discriminate Hs].
  injection Hs as Hs. destruct (exec_next_effects strict t st st' Hs) as (_ & _ & _ & _ & Hd & _).
  destruct Hd as [-> | [Hnc _]]; [exact IH|].
  rewrite Forall_lookup in Hc.
  specialize (Hc (ip st) (opcode t)). rewrite lookup_map_opcode, Et in Hc.
  rewrite (Hc eq_refl) in Hnc. discriminate Hnc.
Qed.



Lemma run_strict_permissive (fuel : nat) (toks : list Token) (st : State) :
  Forall (fun v => 0 <= v <= 255) (cells st) ->
  (forall f l st', run fuel toks true st = Crashed f l st' -> f = InputFailure \/ f = MissingJump) ->
  run fuel toks false st = run fuel toks true st.
Proof.
  revert st. induction fuel as [|fuel IH]; intros st Hc H; cbn [run] in *; [reflexivity|].
  destruct (ip st <? length toks)%nat; [|reflexivity].
  unfold step in *. destruct (toks !! ip st) as [t|]; [|reflexivity].
  destruct (exec_strict_permissive t st (cur_range st Hc)) as [HN HP].
  destruct (exec_token true t st) as [s1|f1 l1 s1] eqn:Ex.
  - rewrite (HN s1 eq_refl). apply IH; [|exact H].
    exact (proj2 (proj2 (proj2 (proj2 (proj2 (exec_next_effects true t st s1 Ex))))) Hc).
  - rewrite (HP f1 l1 s1 eq_refl (H f1 l1 s1 eq_refl)). reflexivity.
Qed.

(** Strict mode differs from permissive mode only by its four boundary
    panics: unless the strict run stops on one of them, the permissive run
    of the same stream and input gives the same result (same final state,
    output and remaining input, or the same panic). *)
Theorem strict_agrees_permissive (fuel : nat) (toks : list Token) (input : list (option N)) :
  (forall f l st, run_brainfuck fuel toks true input = Crashed f l st ->
     f = InputFailure \/ f = MissingJump) ->
  run_brainfuck fuel toks false input = run_brainfuck fuel toks true input.
Proof.
  intros H. apply run_strict_permissive; [apply repeat_zero_range | exact H].
Qed.

(** An iteration changes at most the cell under the data pointer, only
    appends to the output and takes at most one entry from the input; so
    along a run the tape keeps its size, stdout only grows, and the input
    is consumed in order from the front. *)
Theorem step_frame (toks : list Token) (strict : bool) (st0 : State) :
  (forall st st', step toks strict st = Some (Next st') ->
     (forall k, k <> dp st -> cells st' !! k = cells st !! k) /\
     (exists o, out st' = out st ++ o) /\
     (inp st' = inp st \/ exists c, inp st = c :: inp st')) /\
  (forall st, reaches toks strict st0 st ->
     length (cells st) = length (cells st0) /\
     (exists o, out st = out st0 ++ o) /\
     (exists used, inp st0 = used ++ inp st)).
Proof.
  split.
  - intros st st' Hs. unfold step in Hs.
    destruct (toks !! ip st) as [t|]; [|discriminate Hs]. injection Hs as Hs.
    destruct (exec_next_effects strict t st st' Hs) as (H1 & _ & H3 & H4 & _). auto.
  - intros st Hr. induction Hr as [|st st' _ IH _ Hs].
    + split; [reflexivity|]. split; [exists []; rewrite app_nil_r; reflexivity|].
      exists []. reflexivity.
    + unfold step in Hs. destruct (toks !! ip st) as [t|]; [|discriminate Hs]. injection Hs as Hs.
      destruct (exec_next_effects strict t st st' Hs) as (_ & L & [o2 O2] & I & _).
      destruct IH as (L1 & [o1 O1] & [u1 I1]).
      split; [congruence|]. split; [exists (o1 ++ o2); rewrite O2, O1, app_assoc; reflexivity|].
      destruct I as [I | [c I]].
      * exists u1. rewrite I1, I. reflexivity.
      * exists (u1 ++ [c]). rewrite I1, I, <- app_assoc. reflexivity.
Qed.

Lemma split_nl_line (acc l rest : list ascii) :
  ~ In nl_char l ->
  split_inclusive_nl acc (l ++ nl_char :: rest) =
  (rev acc ++ l ++ [nl_char]) :: split_inclusive_nl [] rest.
Proof.
  revert acc. induction l as [|c l IH]; intros acc Hn; cbn [app split_inclusive_nl].
  - rewrite Ascii.eqb_refl. reflexivity.
  - destruct (Ascii.eqb_spec c nl_char) as [->|Hc]; [exfalso; apply Hn; left; reflexivity|].
    rewrite IH by (intros H; apply Hn; right; exact H).
    cbn [rev]. rewrite <- app_assoc. reflexivity.
Qed.

Lemma split_nl_last (acc l : list ascii) :
  ~ In nl_char l -> rev acc ++ l <> [] ->
  split_inclusive_nl acc l = [rev acc ++ l].
Proof.
  revert acc. induction l as [|c l IH]; intros acc Hn Hne; cbn [app split_inclusive_nl].
  - destruct acc as [|a acc]; [contradiction|]. rewrite app_nil_r. reflexivity.
  - destruct (Ascii.eqb_spec c nl_char) as [->|Hc]; [exfalso; apply Hn; left; reflexivity|].
    rewrite IH.
    + cbn [rev]. rewrite <- app_assoc. reflexivity.
    + intros H; apply Hn; right; exact H.
    + cbn [rev]. rewrite <- app_assoc. discriminate || (intros H; apply app_eq_nil in H as [_ H]; discriminate H).
Qed.

Lemma strip_suffix_snoc (c : ascii) (l : list ascii) : strip_suffix c (l ++ [c]) = Some l.
Proof.
  unfold strip_suffix. rewrite rev_unit, Ascii.eqb_refl, rev_involutive. reflexivity.
Qed.

Lemma strip_suffix_other (c : ascii) (l : list ascii) :
  last l <> Some c -> strip_suffix c l = None.
Proof.
  unfold strip_suffix. intros H. destruct (rev l) as [|c' r] eqn:E; [reflexivity|].
  destruct (Ascii.eqb_spec c' c) as [->|Hc]; [|reflexivity].
  exfalso. apply H. rewrite <- (rev_involutive l), E. cbn [rev]. apply last_snoc.
Qed.

Lemma lines_map_lf (l : list ascii) :
  last l <> Some cr_char -> lines_map (l ++ [nl_char]) = l.
Proof.
  intros H. unfold lines_map. rewrite strip_suffix_snoc, strip_suffix_other by exact H.
  reflexivity.
Qed.

Lemma lines_map_crlf (l : list ascii) : lines_map (l ++ [cr_char; nl_char]) = l.
Proof.
  unfold lines_map. replace (l ++ [cr_char; nl_char]) with ((l ++ [cr_char]) ++ [nl_char])
    by (rewrite <- app_assoc; reflexivity).
  rewrite !strip_suffix_snoc. reflexivity.
Qed.

Lemma lines_map_plain (l : list ascii) : ~ In nl_char l -> lines_map l = l.
Proof.
  intros H. unfold lines_map. rewrite strip_suffix_other; [reflexivity|].
  intros Hl. apply H. apply list_elem_of_In. apply last_Some_elem_of. exact Hl.
Qed.

(** [read_file] splits the contents as [str::lines]: an empty file has no
    lines; lines each ended by '\n' (none holding '\n' or ending in '\r')
    come back unchanged; lines each ended by "\r\n" come back unchanged
    with the '\r' dropped; and a last non-empty line without a final
    '\n' is kept as it is. *)
Theorem read_file_lines :
  str_lines [] = [] /\
  (forall ls, Forall (fun l => ~ In nl_char l /\ last l <> Some cr_char) ls ->
     str_lines (concat (map (fun l => l ++ [nl_char]) ls)) = ls) /\
  (forall ls, Forall (fun l => ~ In nl_char l) ls ->
     str_lines (concat (map (fun l => l ++ [cr_char; nl_char]) ls)) = ls) /\
  (forall ls l, Forall (fun l => ~ In nl_char l /\ last l <> Some cr_char) ls ->
     ~ In nl_char l -> l <> [] ->
     str_lines (concat (map (fun l => l ++ [nl_char]) ls) ++ l) = ls ++ [l]).
Proof.
  split; [reflexivity|]. split; [|split].
  - intros ls H. unfold str_lines. induction H as [|l ls [Hn Hc] _ IH]; [reflexivity|].
    cbn [map concat]. rewrite <- app_assoc. cbn [app].
    rewrite split_nl_line by exact Hn. cbn [map rev app].
    rewrite lines_map_lf by exact Hc. f_equal. exact IH.
  - intros ls H. unfold str_lines. induction H as [|l ls Hn _ IH]; [reflexivity|].
    cbn [map concat]. set (rest := concat _).
    replace ((l ++ [cr_char; nl_char]) ++ rest) with ((l ++ [cr_char]) ++ nl_char :: rest)
      by (rewrite <- !app_assoc; reflexivity).
    rewrite split_nl_line.
    + cbn [map rev app]. rewrite <- app_assoc. cbn [app].
      rewrite lines_map_crlf. f_equal. exact IH.
    + intros Hin. apply in_app_or in Hin as [Hin|[Hin|[]]]; [exact (Hn Hin)|discriminate Hin].
  - intros ls l H Hn Hne. unfold str_lines. induction H as [|l0 ls [Hn0 Hc0] _ IH].
    + cbn [map concat app]. rewrite split_nl_last by (cbn; assumption).
      cbn [map rev app]. rewrite lines_map_plain by exact Hn. reflexivity.
    + cbn [map concat]. rewrite <- !app_assoc. cbn [app].
      rewrite split_nl_line by exact Hn0. cbn [map rev app].
      rewrite lines_map_lf by exact Hc0. f_equal. exact IH.
Qed.

(** The argument handling of [main]: no arguments at all panic on
    [args[0]]; one argument or four or more print the usage and exit
    without reading any file; with three arguments a flag other than
    "--strict" is silently ignored (the run is permissive, so
    [prog file --strict] reads a file named "--strict"); a file that cannot
    be read panics; otherwise the assembled file is run, strict exactly
    with the "--strict" flag. *)
Theorem main_args (fs : string -> option (list ascii)) (fuel : nat) (input : list (option N)) :
  main [] fs fuel input = MainIndexPanic /\
  (forall p, main [p] fs fuel input = MainUsageExit) /\
  (forall args, (4 <= length args)%nat -> main args fs fuel input = MainUsageExit) /\
  (forall p f path, f <> "--strict"%string ->
     main [p; f; path] fs fuel input = main [p; path] fs fuel input) /\
  (forall p path, fs path = None ->
     main [p; path] fs fuel input = MainReadPanic /\
     main [p; "--strict"; path]%string fs fuel input = MainReadPanic) /\
  (forall p path s toks, fs path = Some s -> tokenize_lines (str_lines s) = inr toks ->
     main [p; path] fs fuel input = MainRan (run_brainfuck fuel toks false input) /\
     main [p; "--strict"; path]%string fs fuel input =
       MainRan (run_brainfuck fuel toks true input)).
Proof.
  split; [reflexivity|]. split; [reflexivity|]. split; [|split; [|split]].
  - intros args Hl. unfold main, parse_args.
    destruct (Nat.ltb_spec (length args) 2); [lia|].
    destruct (Nat.eqb_spec (length args) 2); [lia|].
    destruct (Nat.eqb_spec (length args) 3); [lia|]. reflexivity.
  - intros p f path Hf. unfold main, parse_args. cbn [length nth Nat.ltb Nat.eqb].
    destruct (String.eqb_spec f "--strict"); [contradiction | reflexivity].
  - intros p path Hn. unfold main, parse_args, read_file. cbn. rewrite Hn. auto.
  - intros p path s toks Hs Ht. unfold main, parse_args, read_file. cbn -[tokenize_lines run_brainfuck].
    rewrite Hs, Ht. auto.
Qed.

Lemma Z_range_check (P : Z -> bool) :
  forallb P (map Z.of_nat (seq 0 256)) = true -> forall v, 0 <= v <= 255 -> P v = true.
Proof.
  intros H v Hv. rewrite forallb_forall in H. apply H.
  apply in_map_iff. exists (Z.to_nat v). split; [apply Z2Nat.id; lia|].
  apply in_seq. lia.
Qed.

Lemma print_shape_all : forallb print_shape (map Z.of_nat (seq 0 256)) = true.
Proof. vm_compute. reflexivity. Qed.

Lemma print_cases (v : Z) : 0 <= v <= 255 ->
  (v < 128 /\ print_u8_as_char v = [v]) \/
  (128 <= v /\ exists b1 b2, print_u8_as_char v = [b1; b2] /\ 194 <= b1 <= 195 /\
     128 <= b2 <= 191 /\ utf8_decode [b1; b2] = Some v).
Proof.
  intros Hv. pose proof (Z_range_check print_shape print_shape_all v Hv) as H.
  unfold print_shape in H.
  destruct (print_u8_as_char v) as [|b1 [|b2 [|b3 r]]]; try discriminate H.
  - left. apply andb_prop in H as [H1 H2]. apply Z.eqb_eq in H1. apply Z.ltb_lt in H2.
    subst b1. auto.
  - right. repeat (apply andb_prop in H as [H ?]).
    destruct (utf8_decode [b1; b2]) as [w|] eqn:Ed; [|discriminate].
    repeat match goal with
           | H : (_ <=? _) = true |- _ => apply Z.leb_le in H
           | H : (_ =? _) = true |- _ => apply Z.eqb_eq in H
           end.
    subst w. split; [lia|]. exists b1, b2. repeat split; lia || reflexivity || exact Ed.
Qed.

(** The output of '.' is the UTF-8 encoding of the cell as a code point:
    decoding the bytes written for a cell value in [0, 255] gives the value
    back, every byte is in [0, 255], and different sequences of printed
    cell values give different output, so stdout determines the values
    printed. *)
Theorem print_u8_as_char_utf8 :
  (forall v, 0 <= v <= 255 ->
     utf8_decode (print_u8_as_char v) = Some v /\
     Forall (fun b => 0 <= b <= 255) (print_u8_as_char v)) /\
  (forall vs ws, Forall (fun v => 0 <= v <= 255) vs -> Forall (fun v => 0 <= v <= 255) ws ->
     concat (map print_u8_as_char vs) = concat (map print_u8_as_char ws) -> vs = ws).
Proof.
  split.
  - intros v Hv. destruct (print_cases v Hv) as [[Hl ->] | [Hl (b1 & b2 & -> & H1 & H2 & Hd)]].
    + cbn. rewrite (proj2 (Z.ltb_lt _ _) Hl). split; [reflexivity|]. repeat constructor; lia.
    + split; [exact Hd|]. repeat constructor; lia.
  - intros vs ws Hvs. revert ws. induction Hvs as [|v vs Hv _ IH]; intros ws Hws E.
    + destruct Hws as [|w ws Hw _]; [reflexivity|]. exfalso. cbn in E.
      destruct (print_cases w Hw) as [[_ Hp] | [_ (b1 & b2 & Hp & _)]]; rewrite Hp in E; discriminate E.
    + destruct Hws as [|w ws Hw Hws].
      { exfalso. cbn in E.
        destruct (print_cases v Hv) as [[_ Hp] | [_ (b1 & b2 & Hp & _)]]; rewrite Hp in E; discriminate E. }
      cbn [map concat] in E.
      destruct (print_cases v Hv) as [[Hlv Hpv] | [Hlv (a1 & a2 & Hpv & A1 & A2 & Ad)]];
      destruct (print_cases w Hw) as [[Hlw Hpw] | [Hlw (b1 & b2 & Hpw & B1 & B2 & Bd)]];
      rewrite Hpv, Hpw in E; cbn [app] in E; injection E as E1 E2; try lia.
      * subst w. f_equal. apply IH; assumption.
      * subst b1 b2. rewrite Ad in Bd. injection Bd as <-. f_equal. apply IH; assumption.
Qed.

Lemma tokenize_lines_op_line_witness :
  map op_line [mkToken "+" None 1; mkToken "[" (Some 3%nat) 2;
               mkToken "-" None 2; mkToken "]" (Some 1%nat) 2]%char =
  ops_with_lines 0 [src "+ # x"; src "[-]"].
Proof.
  apply (proj1 (tokenize_lines_op_line [src "+ # x"; src "[-]"] _ eq_refl)).
Defined.

Lemma tokenize_lines_warnings_witness :
  warns (mkTokState [mkToken "+" None 1]%char [] [(1%nat, "x"%char)]) =
  unknowns_with_lines 0 [["160"; "x"; "133"; "+"]%char].
Proof.
  apply (tokenize_lines_warnings [["160"; "x"; "133"; "+"]%char]). reflexivity.
Defined.

Lemma tokenize_lines_outcome_witness :
  tokenize_lines [src "+"; src "]"; src "]"] = inl (UnmatchedClose 2).
Proof.
  apply (proj2 (proj2 (proj2 (tokenize_lines_outcome [src "+"; src "]"; src "]"])) 2%nat)).
  split; [cbn; lia|]. split; [reflexivity|]. cbn. discriminate.
Defined.

Lemma assembled_no_unknown_instruction_witness :
  diag (with_ip (with_ip (with_cur (with_ip (with_ip (with_cur (init_state []) 1) 1) 2) 0) 3) 4)
  = [].
Proof.
  apply (assembled_no_unknown_instruction [src "+[-]"]
           [mkToken "+" None 1; mkToken "[" (Some 3%nat) 1;
            mkToken "-" None 1; mkToken "]" (Some 1%nat) 1]%char false [] _ eq_refl).
  apply (reaches_step _ _ _ (with_ip (with_cur (with_ip (with_ip (with_cur (init_state []) 1) 1) 2) 0) 3));
    [| vm_compute; lia | match goal with |- ?a = ?b => exact (@eq_refl _ a <: a = b) end].
  apply (reaches_step _ _ _ (with_ip (with_ip (with_cur (init_state []) 1) 1) 2));
    [| vm_compute; lia | match goal with |- ?a = ?b => exact (@eq_refl _ a <: a = b) end].
  apply (reaches_step _ _ _ (with_ip (with_cur (init_state []) 1) 1));
    [| vm_compute; lia | match goal with |- ?a = ?b => exact (@eq_refl _ a <: a = b) end].
  apply (reaches_step _ _ _ (init_state []));
    [apply reaches_refl | vm_compute; lia | match goal with |- ?a = ?b => exact (@eq_refl _ a <: a = b) end].
Defined.


Lemma strict_agrees_permissive_witness :
  run_brainfuck 5 [mkToken "+" None 1; mkToken "." None 1]%char false [] =
  run_brainfuck 5 [mkToken "+" None 1; mkToken "." None 1]%char true [].
Proof.
  apply strict_agrees_permissive.
  intros f l st H.
  assert (E : match run_brainfuck 5 [mkToken "+" None 1; mkToken "." None 1]%char true [] with
              | Crashed _ _ _ => false | _ => true end = true) by (vm_compute; reflexivity).
  rewrite H in E. discriminate E.
Defined.

Lemma step_frame_witness :
  (forall k, k <> 0%nat ->
     cells (mkState 1 0 (cells (init_state [])) [] [] [(1%nat, "x"%char)]) !! k =
     cells (init_state []) !! k) /\
  (exists o, out (mkState 1 0 (cells (init_state [])) [] [] [(1%nat, "x"%char)]) =
             out (init_state []) ++ o) /\
  (inp (mkState 1 0 (cells (init_state [])) [] [] [(1%nat, "x"%char)]) = inp (init_state []) \/
   exists c, inp (init_state []) =
             c :: inp (mkState 1 0 (cells (init_state [])) [] [] [(1%nat, "x"%char)])).
Proof.
  exact (proj1 (step_frame [mkToken "x" None 1]%char false (init_state []))
           (init_state []) (mkState 1 0 (cells (init_state [])) [] [] [(1%nat, "x"%char)])
           eq_refl).
Defined.

Lemma read_file_lines_witness :
  str_lines (concat (map (fun l => l ++ [nl_char]) [src "+"; src "-."])) = [src "+"; src "-."].
Proof.
  apply (proj1 (proj2 read_file_lines)).
  repeat constructor; cbn; intuition discriminate.
Defined.

Lemma main_args_witness :
  main ["bf"; "-s"; "prog.bf"]%string (fun _ => None) 5 [] =
  main ["bf"; "prog.bf"]%string (fun _ => None) 5 [].
Proof.
  apply (proj1 (proj2 (proj2 (proj2 (main_args (fun _ => None) 5 []))))).
  discriminate.
Defined.

Lemma print_u8_as_char_utf8_witness :
  utf8_decode (print_u8_as_char 233) = Some 233 /\
  Forall (fun b => 0 <= b <= 255) (print_u8_as_char 233).
Proof. apply (proj1 print_u8_as_char_utf8). lia. Defined.
